(** * The [irc] provider of tc: sessions, channel reconciliation, events

    A shallow embedding of [src/ng/providers/irc.provider.js].  The provider
    owns three transport clients (read, write, whisper), keeps the channels
    each of them has joined in step with [settings.channels], collapses
    repeated "disconnected" notifications and rebroadcasts transport events
    on its own emitter [ee].

    The JavaScript is modelled as state-passing code in an exception monad:
    a computation takes a [State] and ends either normally or with a thrown
    [TypeError], in both cases with the state it reached.  Arrays live in a
    store and are handled through references, as the source does. *)

From stdpp Require Import base list strings gmap.

(** ** Values *)

(** The JavaScript values the provider handles: event payloads, channel
    names, the [badLogin] flag.  [VOther] stands for any value that is not
    undefined, a boolean or a string; its tag is its identity. *)
Inductive value :=
| VUndefined
| VBool (b : bool)
| VStr (s : string)
| VOther (tag : nat).

#[global] Instance value_eq_dec : EqDecision value.
Proof. solve_decision. Defined.

#[global] Instance value_countable : Countable value.
Proof.
  refine (inj_countable'
    (λ v, match v with
          | VUndefined => inl ()
          | VBool b => inr (inl b)
          | VStr s => inr (inr (inl s))
          | VOther n => inr (inr (inr n))
          end)
    (λ x, match x with
          | inl _ => VUndefined
          | inr (inl b) => VBool b
          | inr (inr (inl s)) => VStr s
          | inr (inr (inr n)) => VOther n
          end) _).
  by intros [].
Defined.

(** The keys of the [clients] table, in the order the object literal
    [{read: null, write: null, whisper: null}] declares them. *)
Inductive Role := read | write | whisper.

#[global] Instance Role_eq_dec : EqDecision Role.
Proof. solve_decision. Defined.

Definition keys : list Role := [read; write; whisper].

(** A reference to an array of the store. *)
Definition loc := nat.

(** ** Configuration *)

Record Identity := { username : string; password : string }.

(** The external [settings] object: [channels] is a reference, so that a
    mutation of the array in place is seen by every holder of it. *)
Record Settings := { identity : Identity; channels : loc }.

(** The record handed to [new tmi.client]. *)
Record ClientSettings := {
  o_debug : bool;
  o_random : string;
  o_timeout : Z;
  o_reconnect : bool;
  o_identity : Identity;
  o_channels : loc
}.

(** ** Listeners *)

(** The functions the provider passes around as callbacks. *)
Inductive Callback := CbCreate | CbDestroy | CbSyncChannels.

(** The closures the provider registers on a client, one constructor per
    function expression of the source. *)
Inductive Handler :=
| HForward (event : string)          (* forwardEvents: re-emit on [ee] *)
| HReadDisconnected                  (* create: 'disconnected' on clients.read *)
| HReadConnected                     (* create: 'connected' on clients.read *)
| HEmitDisconnected                  (* the one-shot closure of onlyEmitDisconnectedOnce *)
| HOnlyEmitDisconnectedOnce          (* onlyEmitDisconnectedOnce itself, as a listener *)
| HBadLoginCheck (cb : Callback).    (* attachBadLoginCheck: 'disconnected' on clients.read *)

Record Listener := { l_event : string; l_once : bool; l_fn : Handler }.

#[global] Instance Callback_eq_dec : EqDecision Callback.
Proof. solve_decision. Defined.
#[global] Instance Handler_eq_dec : EqDecision Handler.
Proof. solve_decision. Defined.
#[global] Instance Listener_eq_dec : EqDecision Listener.
Proof. solve_decision. Defined.

(** ** Clients and the provider state *)

(** A tmi client as the provider sees it: the key of [clients] it was
    created under, its options, the listeners of its emitter and the
    [tcCurrentChannels] array the provider hangs on it. *)
Record Client := {
  c_key : Role;
  c_opts : ClientSettings;
  c_listeners : list Listener;
  tcCurrentChannels : loc
}.

Record Clients := {
  cl_read : option Client;
  cl_write : option Client;
  cl_whisper : option Client
}.

(** What the provider asks of a transport client.  [Part] takes a value
    because [leaveChannels] passes whatever the indexed read gave. *)
Inductive Call :=
| New (setts : ClientSettings)
| Connect
| Disconnect
| RemoveAllListeners
| Join (channel : value)
| Part (channel : value)
| Say (channel message : value)
| Whisper (username message : value)
| IsMod (channel username : value).

#[global] Instance Identity_eq_dec : EqDecision Identity.
Proof. solve_decision. Defined.
#[global] Instance ClientSettings_eq_dec : EqDecision ClientSettings.
Proof. solve_decision. Defined.
#[global] Instance Call_eq_dec : EqDecision Call.
Proof. solve_decision. Defined.

(** The emitter [ee] returned by the factory: its two flags and the events
    it has emitted to its consumers, oldest first. *)
Record Emitter := {
  ready : bool;
  badLogin : value;
  emitted : list (string * list value)
}.

Record State := {
  heap : list (list value);        (* the arrays, by reference *)
  settings : Settings;
  clients : Clients;
  ee : Emitter;
  trace : list (Role * Call);      (* calls made on transport clients, oldest first *)
  observer : option Callback;      (* Object.observe(clients, ...) of onBadLogin *)
  changes : list Role;             (* its pending 'update' records, by property name *)
  destroyCalls : nat               (* how many times destroy() was entered *)
}.

Definition client_at (key : Role) (cs : Clients) : option Client :=
  match key with
  | read => cl_read cs
  | write => cl_write cs
  | whisper => cl_whisper cs
  end.

Definition put_client (key : Role) (v : option Client) (cs : Clients) : Clients :=
  match key with
  | read => {| cl_read := v; cl_write := cl_write cs; cl_whisper := cl_whisper cs |}
  | write => {| cl_read := cl_read cs; cl_write := v; cl_whisper := cl_whisper cs |}
  | whisper => {| cl_read := cl_read cs; cl_write := cl_write cs; cl_whisper := v |}
  end.

Definition with_heap (h : list (list value)) (s : State) : State :=
  {| heap := h; settings := settings s; clients := clients s; ee := ee s;
     trace := trace s; observer := observer s; changes := changes s;
     destroyCalls := destroyCalls s |}.

Definition with_settings (x : Settings) (s : State) : State :=
  {| heap := heap s; settings := x; clients := clients s; ee := ee s;
     trace := trace s; observer := observer s; changes := changes s;
     destroyCalls := destroyCalls s |}.

Definition with_clients (x : Clients) (s : State) : State :=
  {| heap := heap s; settings := settings s; clients := x; ee := ee s;
     trace := trace s; observer := observer s; changes := changes s;
     destroyCalls := destroyCalls s |}.

Definition with_ee (x : Emitter) (s : State) : State :=
  {| heap := heap s; settings := settings s; clients := clients s; ee := x;
     trace := trace s; observer := observer s; changes := changes s;
     destroyCalls := destroyCalls s |}.

Definition with_trace (x : list (Role * Call)) (s : State) : State :=
  {| heap := heap s; settings := settings s; clients := clients s; ee := ee s;
     trace := x; observer := observer s; changes := changes s;
     destroyCalls := destroyCalls s |}.

Definition with_observer (x : option Callback) (s : State) : State :=
  {| heap := heap s; settings := settings s; clients := clients s; ee := ee s;
     trace := trace s; observer := x; changes := changes s;
     destroyCalls := destroyCalls s |}.

Definition with_changes (x : list Role) (s : State) : State :=
  {| heap := heap s; settings := settings s; clients := clients s; ee := ee s;
     trace := trace s; observer := observer s; changes := x;
     destroyCalls := destroyCalls s |}.

Definition with_destroyCalls (n : nat) (s : State) : State :=
  {| heap := heap s; settings := settings s; clients := clients s; ee := ee s;
     trace := trace s; observer := observer s; changes := changes s;
     destroyCalls := n |}.

(** ** The monad *)

Inductive exn := TypeError.

Inductive outcome (A : Type) :=
| Ok (a : A) (s : State)
| Err (e : exn) (s : State).
Arguments Ok {A} a s.
Arguments Err {A} e s.

(** The state a computation ended in, thrown or not. *)
Definition final {A} (o : outcome A) : State :=
  match o with Ok _ s => s | Err _ s => s end.

Definition threw {A} (o : outcome A) : bool :=
  match o with Ok _ _ => false | Err _ _ => true end.

Definition M (A : Type) : Type := State → outcome A.

#[global] Instance M_ret : MRet M := λ A a s, Ok a s.
#[global] Instance M_bind : MBind M := λ A B f m s,
  match m s with
  | Ok a s' => f a s'
  | Err e s' => Err e s'
  end.

Definition get : M State := λ s, Ok s s.
Definition modify (f : State → State) : M unit := λ s, Ok () (f s).
Definition throw {A} (e : exn) : M A := λ s, Err e s.
Definition skip : M unit := mret ().

(** [Array.prototype.forEach] and [_.forEach] over a fixed list. *)
Fixpoint forEach {A} (l : list A) (f : A → M unit) : M unit :=
  match l with
  | [] => skip
  | x :: l' => f x ;; forEach l' f
  end.

(** ** Primitive accesses *)

(** Reading [clients[key]]; the value may be [null]. *)
Definition getClient (key : Role) : M (option Client) :=
  λ s, Ok (client_at key (clients s)) s.

(** Reading a property of [clients[key]]: a [TypeError] when it is [null]. *)
Definition theClient (key : Role) : M Client :=
  c ← getClient key;
  match c with
  | Some c => mret c
  | None => throw TypeError
  end.

(** The assignment [clients[key] = v].  Once [Object.observe] watches the
    table, an assignment that changes the value queues an 'update' record
    named after the property. *)
Definition setClient (key : Role) (v : option Client) : M unit :=
  modify (λ s,
    let changed := match client_at key (clients s), v with
                   | None, None => false
                   | _, _ => true
                   end in
    let s' := with_clients (put_client key v (clients s)) s in
    match observer s with
    | Some _ => if changed then with_changes (changes s ++ [key]) s' else s'
    | None => s'
    end).

(** A method call on the transport client held under [key]. *)
Definition call (key : Role) (c : Call) : M unit :=
  theClient key ;; modify (λ s, with_trace (trace s ++ [(key, c)]) s).

Definition readArray (l : loc) : M (list value) :=
  λ s, Ok (default [] (heap s !! l)) s.

Definition writeArray (l : loc) (v : list value) : M unit :=
  modify (λ s, with_heap (<[l := v]> (heap s)) s).

Definition allocArray (v : list value) : M loc :=
  λ s, Ok (length (heap s)) (with_heap (heap s ++ [v]) s).

(** [angular.copy] of an array: a new array with the same elements. *)
Definition copyArray (l : loc) : M loc :=
  v ← readArray l; allocArray v.

(** [angular.copy] of the client settings: the nested identity is copied by
    value, the channel array into a new array. *)
Definition copySettings (o : ClientSettings) : M ClientSettings :=
  l ← copyArray (o_channels o);
  mret {| o_debug := o_debug o; o_random := o_random o; o_timeout := o_timeout o;
          o_reconnect := o_reconnect o;
          o_identity := {| username := username (o_identity o);
                           password := password (o_identity o) |};
          o_channels := l |}.

Definition with_listeners (ls : list Listener) (c : Client) : Client :=
  {| c_key := c_key c; c_opts := c_opts c; c_listeners := ls;
     tcCurrentChannels := tcCurrentChannels c |}.

(** Updating the emitter state of [clients[key]] is a mutation of the client
    object, not an assignment to the table: no change record. *)
Definition setListeners (key : Role) (ls : list Listener) : M unit :=
  c ← theClient key;
  modify (λ s, with_clients (put_client key (Some (with_listeners ls c)) (clients s)) s).

(** [client.addListener(event, fn)], also spelled [client.on]. *)
Definition addListener (key : Role) (event : string) (fn : Handler) : M unit :=
  c ← theClient key;
  setListeners key (c_listeners c ++ [{| l_event := event; l_once := false; l_fn := fn |}]).

Definition on := addListener.

(** [client.once(event, fn)]. *)
Definition once (key : Role) (event : string) (fn : Handler) : M unit :=
  c ← theClient key;
  setListeners key (c_listeners c ++ [{| l_event := event; l_once := true; l_fn := fn |}]).

(** [client.removeAllListeners()]; recorded as a call as well, since the
    client is dropped right after and its emitter state with it. *)
Definition removeAllListeners (key : Role) : M unit :=
  setListeners key [] ;; call key RemoveAllListeners.

Fixpoint remove_first (l : Listener) (ls : list Listener) : list Listener :=
  match ls with
  | [] => []
  | x :: ls' => if decide (x = l) then ls' else x :: remove_first l ls'
  end.

(** What a one-shot wrapper does before it runs: it takes itself off the
    emitter it was fired on.  When that client has been dropped from the
    table meanwhile there is nothing left to update. *)
Definition removeListener (key : Role) (l : Listener) : M unit :=
  c ← getClient key;
  match c with
  | Some c => setListeners key (remove_first l (c_listeners c))
  | None => skip
  end.

Definition with_ready (b : bool) (e : Emitter) : Emitter :=
  {| ready := b; badLogin := badLogin e; emitted := emitted e |}.
Definition with_badLogin (v : value) (e : Emitter) : Emitter :=
  {| ready := ready e; badLogin := v; emitted := emitted e |}.
Definition with_emitted (l : list (string * list value)) (e : Emitter) : Emitter :=
  {| ready := ready e; badLogin := badLogin e; emitted := l |}.

Definition setReady (b : bool) : M unit := modify (λ s, with_ee (with_ready b (ee s)) s).
Definition setBadLogin (v : value) : M unit := modify (λ s, with_ee (with_badLogin v (ee s)) s).

(** [ee.emit(event, ...args)]: the consumers of [ee] are outside the
    provider; the event is recorded. *)
Definition ee_emit (event : string) (args : list value) : M unit :=
  modify (λ s, with_ee (with_emitted (emitted (ee s) ++ [(event, args)]) (ee s)) s).

(** [settings.identity.password = v]. *)
Definition setPassword (v : string) : M unit :=
  modify (λ s, with_settings
    {| identity := {| username := username (identity (settings s)); password := v |};
       channels := channels (settings s) |} s).

(** ** The provider *)

(** [credentialsValid()]. *)
Definition credentialsValid (s : State) : bool :=
  negb (String.length (username (identity (settings s))) =? 0) &&
  negb (String.length (password (identity (settings s))) =? 0).

(** [destroy()]. *)
Definition destroy : M unit :=
  modify (λ s, with_destroyCalls (S (destroyCalls s)) s) ;;
  forEach keys (λ key,
    client ← getClient key;
    match client with
    | Some _ =>
        removeAllListeners key ;;
        call key Disconnect ;;
        setClient key None
    | None => skip
    end).

(** [forwardEvents(clients[key], ee, events)]. *)
Definition forwardEvents (key : Role) (events : list string) : M unit :=
  forEach events (λ event, addListener key event (HForward event)).

Definition readEvents : list string :=
  ["action"; "chat"; "clearchat"; "connected"; "connecting"; "crash";
   "hosted"; "hosting"; "slowmode"; "subanniversary";
   "subscriber"; "subscription"; "timeout"; "unhost"].

Definition clientSettings (s : State) : ClientSettings :=
  {| o_debug := false; o_random := "chat"; o_timeout := 10000%Z; o_reconnect := true;
     o_identity := identity (settings s); o_channels := channels (settings s) |}.

(** [onlyEmitDisconnectedOnce()], local to [create]. *)
Definition onlyEmitDisconnectedOnce : M unit :=
  once read "disconnected" HEmitDisconnected.

(** [clients[key] = new tmi.client(setts)] together with the assignment of
    [tcCurrentChannels] that follows it. *)
Definition newClient (key : Role) (setts : ClientSettings) (tc : loc) : M unit :=
  modify (λ s, with_trace (trace s ++ [(key, New setts)]) s) ;;
  setClient key (Some {| c_key := key; c_opts := setts; c_listeners := [];
                         tcCurrentChannels := tc |}).

(** The function [create] passes to [_.forEach(clients, ...)].
    [setts.channels] is an array in every state of this model, hence truthy:
    the guard on the [tcCurrentChannels] assignment passes. *)
Definition createClient (clientSettings : ClientSettings) (key : Role) : M unit :=
  setts ← copySettings clientSettings;
  setts ← (if decide (key = whisper) then
             l ← allocArray [];
             mret {| o_debug := o_debug setts; o_random := "group";
                     o_timeout := o_timeout setts; o_reconnect := o_reconnect setts;
                     o_identity := o_identity setts; o_channels := l |}
           else mret setts);
  tc ← copyArray (o_channels setts);
  newClient key setts tc ;;
  call key Connect.

(** [create()]. *)
Definition create : M unit :=
  destroy ;;
  setBadLogin (VBool false) ;;
  s0 ← get;
  forEach keys (createClient (clientSettings s0)) ;;
  forwardEvents read readEvents ;;
  forwardEvents whisper ["whisper"] ;;
  on read "disconnected" HReadDisconnected ;;
  on read "connected" HReadConnected ;;
  onlyEmitDisconnectedOnce.

(** [array.indexOf(v) === -1]: strict equality on the elements. *)
Definition notIndexOf (arr : list value) (v : value) : bool :=
  bool_decide (v ∉ arr).

(** The function [joinChannels(clients[key])] gives to [forEach]. *)
Definition joinChannel (key : Role) (channel : value) : M unit :=
  client ← theClient key;
  joined ← readArray (tcCurrentChannels client);
  if notIndexOf joined channel then
    call key (Join channel) ;;
    writeArray (tcCurrentChannels client) (joined ++ [channel])
  else skip.

(** [joinChannels(clients[key])].  The callback never changes the array it
    iterates (it only pushes a channel that the joined array lacks), so the
    iteration runs over the elements read at its start. *)
Definition joinChannels (key : Role) : M unit :=
  s0 ← get;
  desired ← readArray (channels (settings s0));
  forEach desired (joinChannel key).

(** The body of the loop of [leaveChannels] for [i = n - 1] down to [0]. *)
Fixpoint leaveLoop (n : nat) (key : Role) : M unit :=
  match n with
  | 0 => skip
  | S i =>
      client ← theClient key;
      joined ← readArray (tcCurrentChannels client);
      let channel := default VUndefined (joined !! i) in
      s ← get;
      desired ← readArray (channels (settings s));
      (if notIndexOf desired channel then
         call key (Part channel) ;;
         writeArray (tcCurrentChannels client) (delete i joined)
       else skip) ;;
      leaveLoop i key
  end.

(** [leaveChannels(clients[key])]. *)
Definition leaveChannels (key : Role) : M unit :=
  client ← theClient key;
  joined ← readArray (tcCurrentChannels client);
  leaveLoop (length joined) key.

(** [syncChannels()]. *)
Definition syncChannels : M unit :=
  forEach [read; write] (λ key,
    joinChannels key ;;
    leaveChannels key).

Definition run_callback (cb : Callback) : M unit :=
  match cb with
  | CbCreate => create
  | CbDestroy => destroy
  | CbSyncChannels => syncChannels
  end.

(** [attachBadLoginCheck()], local to [onBadLogin(cb)]. *)
Definition attachBadLoginCheck (cb : Callback) : M unit :=
  on read "disconnected" (HBadLoginCheck cb).

(** [onBadLogin(cb)]: attach now when there is a read client, and watch the
    table for later ones. *)
Definition onBadLogin (cb : Callback) : M unit :=
  c ← getClient read;
  (match c with Some _ => attachBadLoginCheck cb | None => skip end) ;;
  modify (with_observer (Some cb)).

(** The function [onBadLogin] hands to [Object.observe], applied to a batch
    of change records. *)
Definition observerCallback (cb : Callback) (chs : list Role) : M unit :=
  forEach chs (λ change,
    if decide (change = read) then attachBadLoginCheck cb else skip).

(** The delivery of the pending change records, which the runtime performs
    at the end of the turn that queued them. *)
Definition deliverChanges : M unit :=
  s ← get;
  match observer s, changes s with
  | Some cb, ch :: chs => modify (with_changes []) ;; observerCallback cb (ch :: chs)
  | _, _ => skip
  end.

(** ** Events of the transport clients *)

Definition badLoginReason : value := VStr "Login unsuccessful.".

(** The first argument of a listener. *)
Definition reasonOf (args : list value) : value := default VUndefined (args !! 0).

(** The bodies of the listeners.  The digest that the source requests with
    [process.nextTick] runs in a later turn and is not part of a listener's
    effect. *)
Definition run_handler (h : Handler) (args : list value) : M unit :=
  match h with
  | HForward event => ee_emit event args
  | HReadDisconnected =>
      (if decide (reasonOf args = badLoginReason) then
         setBadLogin (reasonOf args) ;;
         setPassword ""
       else skip) ;;
      setReady false
  | HReadConnected => setReady true
  | HEmitDisconnected =>
      ee_emit "disconnected" args ;;
      once read "connected" HOnlyEmitDisconnectedOnce
  | HOnlyEmitDisconnectedOnce => onlyEmitDisconnectedOnce
  | HBadLoginCheck cb =>
      if decide (reasonOf args = badLoginReason) then
        setBadLogin (reasonOf args) ;;
        setPassword "" ;;
        run_callback cb
      else skip
  end.

(** The listeners of an [emit]: those registered for the event when it
    starts, in registration order.  A one-shot listener is taken off the
    emitter just before it runs. *)
Fixpoint callListeners (key : Role) (ls : list Listener) (args : list value) : M unit :=
  match ls with
  | [] => skip
  | l :: ls' =>
      (if l_once l then removeListener key l else skip) ;;
      run_handler (l_fn l) args ;;
      callListeners key ls' args
  end.

Definition listenersFor (event : string) (ls : list Listener) : list Listener :=
  filter (λ l, l_event l = event) ls.

(** The transport client under [key] emits [event].  A client that has been
    destroyed has no listener left and is no longer in the table: its events
    reach nothing. *)
Definition emit (key : Role) (event : string) (args : list value) : M unit :=
  c ← getClient key;
  match c with
  | Some c => callListeners key (listenersFor event (c_listeners c)) args
  | None => skip
  end.

(** ** Watchers *)

(** The listener [onCredentialsValidChange(cb)] gives to [$watch]. *)
Definition onCredentialsValidChange (cb : bool → M unit) (newv oldv : bool) : M unit :=
  if decide (oldv ≠ newv) then cb newv else skip.

Definition onInvalidCredentials (cb : Callback) : bool → bool → M unit :=
  onCredentialsValidChange (λ valid, if negb valid then run_callback cb else skip).

Definition onValidCredentials (cb : Callback) : bool → bool → M unit :=
  onCredentialsValidChange (λ valid, if valid then run_callback cb else skip).

(** The handler [onChannelsChange(cb)] gives to [$watchCollection]; the two
    collections are compared by reference. *)
Definition onChannelsChange (cb : Callback) (newV oldV : loc) : M unit :=
  if decide (newV ≠ oldV) then run_callback cb else skip.

(** The body of the factory up to the registration of the watchers. *)
Definition setup : M unit :=
  s ← get;
  (if credentialsValid s then create else skip) ;;
  onBadLogin CbDestroy.

(** ** Public members *)

(** [ee.say(channel, message)]. *)
Definition ee_say (channel message : value) : M unit :=
  call write (Say channel message).

(** [ee.whisper(username, message)]. *)
Definition ee_whisper (username message : value) : M unit :=
  call whisper (Whisper username message).

Section IsMod.
(** What the transport client answers to [isMod]. *)
Variable tmi_isMod : Client → value → value → value.

(** [ee.isMod(channel, username)]. *)
Definition ee_isMod (channel username : value) : M value :=
  c ← theClient write;
  call write (IsMod channel username) ;;
  mret (tmi_isMod c channel username).
End IsMod.

(** ** Changes made to [settings] from outside *)

(** The owner of [settings] may change the channel array in place, put a
    new array in its place or change the identity. *)
Inductive SettingsChange :=
| MutateChannels (elements : list value)
| ReplaceChannels (elements : list value)
| SetIdentity (i : Identity).

Definition settingsChange (c : SettingsChange) : M unit :=
  match c with
  | MutateChannels v => s ← get; writeArray (channels (settings s)) v
  | ReplaceChannels v =>
      l ← allocArray v;
      modify (λ s, with_settings {| identity := identity (settings s); channels := l |} s)
  | SetIdentity i =>
      modify (λ s, with_settings {| identity := i; channels := channels (settings s) |} s)
  end.

(** The state of a freshly loaded page: no client, flags down, the given
    settings and channel array. *)
Definition initial (i : Identity) (chans : list value) : State :=
  {| heap := [chans];
     settings := {| identity := i; channels := 0 |};
     clients := {| cl_read := None; cl_write := None; cl_whisper := None |};
     ee := {| ready := false; badLogin := VBool false; emitted := [] |};
     trace := []; observer := None; changes := []; destroyCalls := 0 |}.

(** ** Operations *)

(** Everything that can happen to the provider between two turns of the
    event loop: its own functions, its public members, an event of a
    transport client, the delivery of change records, a watcher firing and
    a change of [settings] from outside. *)
Inductive Op :=
| OSetup
| OCreate
| ODestroy
| OSyncChannels
| OSay (channel message : value)
| OWhisper (username message : value)
| OIsMod (channel username : value)
| OEmit (key : Role) (event : string) (args : list value)
| ODeliverChanges
| OValidWatch (newv oldv : bool)
| OInvalidWatch (newv oldv : bool)
| OChannelsWatch (newV oldV : loc)
| OSettings (c : SettingsChange).

Section Step.
Variable tmi_isMod : Client → value → value → value.

Definition step (op : Op) : M unit :=
  match op with
  | OSetup => setup
  | OCreate => create
  | ODestroy => destroy
  | OSyncChannels => syncChannels
  | OSay channel message => ee_say channel message
  | OWhisper username message => ee_whisper username message
  | OIsMod channel username => ee_isMod tmi_isMod channel username ;; skip
  | OEmit key event args => emit key event args
  | ODeliverChanges => deliverChanges
  | OValidWatch newv oldv => onValidCredentials CbCreate newv oldv
  | OInvalidWatch newv oldv => onInvalidCredentials CbDestroy newv oldv
  | OChannelsWatch newV oldV => onChannelsChange CbSyncChannels newV oldV
  | OSettings c => settingsChange c
  end.
End Step.

(** ** Vocabulary of the properties *)

Definition live (key : Role) (s : State) : Prop := is_Some (client_at key (clients s)).
Definition allLive (s : State) : Prop := ∀ key, live key s.
Definition noneLive (s : State) : Prop := ∀ key, client_at key (clients s) = None.
Definition allOrNone (s : State) : Prop := allLive s ∨ noneLive s.

Definition noClients : Clients := {| cl_read := None; cl_write := None; cl_whisper := None |}.

(** The calls made between a state and a later one. *)
Definition issued (s s' : State) : list (Role * Call) := drop (length (trace s)) (trace s').

Definition callsOn (key : Role) (calls : list (Role * Call)) : list Call :=
  omap (λ e, if decide (e.1 = key) then Some e.2 else None) calls.

Definition joinsOn (key : Role) (calls : list (Role * Call)) : list value :=
  omap (λ c, match c with Join channel => Some channel | _ => None end) (callsOn key calls).

Definition partsOn (key : Role) (calls : list (Role * Call)) : list value :=
  omap (λ c, match c with Part channel => Some channel | _ => None end) (callsOn key calls).

(** The array behind [settings.channels] and the one behind a client's
    [tcCurrentChannels]. *)
Definition desiredChannels (s : State) : option (list value) :=
  heap s !! channels (settings s).

Definition joinedChannels (key : Role) (s : State) : option (list value) :=
  c ← client_at key (clients s); heap s !! tcCurrentChannels c.

Definition asSet (l : list value) : gset value := list_to_set l.

(** A run from [s] to [s'] has reconciled the client under [key]: it has
    joined exactly the desired channels, by one join per channel that was
    missing and one part per channel that was not wanted. *)
Definition reconciles (key : Role) (s s' : State) : Prop :=
  ∃ D J J',
    desiredChannels s = Some D ∧ joinedChannels key s = Some J ∧
    joinedChannels key s' = Some J' ∧
    asSet J' = asSet D ∧
    length (joinsOn key (issued s s')) = size (asSet D ∖ asSet J) ∧
    length (partsOn key (issued s s')) = size (asSet J ∖ asSet D) ∧
    NoDup (joinsOn key (issued s s')) ∧
    NoDup (partsOn key (issued s s')).

(** The arrays of [settings.channels] and of the read and write clients are
    three different arrays of the store. *)
Definition separateArrays (s : State) : Prop :=
  ∃ cr cw,
    client_at read (clients s) = Some cr ∧ client_at write (clients s) = Some cw ∧
    is_Some (heap s !! channels (settings s)) ∧
    is_Some (heap s !! tcCurrentChannels cr) ∧
    is_Some (heap s !! tcCurrentChannels cw) ∧
    tcCurrentChannels cr ≠ channels (settings s) ∧
    tcCurrentChannels cw ≠ channels (settings s) ∧
    tcCurrentChannels cr ≠ tcCurrentChannels cw.

(** What [joinChannels] and [leaveChannels] issue for desired [D] and
    joined [J], as functions of the two lists. *)
Fixpoint joinsOf (D J : list value) : list value :=
  match D with
  | [] => []
  | channel :: D' =>
      if notIndexOf J channel then channel :: joinsOf D' (J ++ [channel])
      else joinsOf D' J
  end.

Definition partsOf (D J : list value) : list value :=
  reverse (filter (λ channel, channel ∉ D) J).

Definition keptOf (D J : list value) : list value :=
  filter (λ channel, channel ∈ D) J.

(** The listeners [create] leaves on the read client, before the one-shot
    ones. *)
Definition listener (event : string) (fn : Handler) : Listener :=
  {| l_event := event; l_once := false; l_fn := fn |}.
Definition oneShot (event : string) (fn : Handler) : Listener :=
  {| l_event := event; l_once := true; l_fn := fn |}.

Definition baseListeners : list Listener :=
  map (λ event, listener event (HForward event)) readEvents ++
  [listener "disconnected" HReadDisconnected; listener "connected" HReadConnected].

Definition suppressor : Listener := oneShot "disconnected" HEmitDisconnected.
Definition rearm : Listener := oneShot "connected" HOnlyEmitDisconnectedOnce.
Definition badLoginCheck : Listener := listener "disconnected" (HBadLoginCheck CbDestroy).

(** The listener lists the read client goes through: after [create] the
    suppressor is armed; a "disconnected" spends it and leaves the re-arming
    listener, a "connected" arms it again; [onBadLogin] adds its check right
    after [create]. *)
Definition armedWirings : list (list Listener) :=
  [[suppressor]; [suppressor; badLoginCheck]; [badLoginCheck; suppressor]].
Definition spentWirings : list (list Listener) :=
  [[rearm]; [badLoginCheck; rearm]].
Definition checkedWirings : list (list Listener) :=
  [[suppressor; badLoginCheck]; [badLoginCheck; suppressor]; [badLoginCheck; rearm]].

Definition wired (ws : list (list Listener)) (s : State) : Prop :=
  ∃ c w, client_at read (clients s) = Some c ∧
         c_listeners c = baseListeners ++ w ∧ w ∈ ws.

(** How many times [ee] has emitted [event]. *)
Definition outward (event : string) (s : State) : nat :=
  length (filter (λ e, e.1 = event) (emitted (ee s))).

(** The read client (or another) emits the same event several times, each
    emission in a turn of its own. *)
Definition notifications (key : Role) (event : string)
    (payloads : list (list value)) (s : State) : State :=
  foldl (λ s args, final (emit key event args s)) s payloads.

(** The state reached by a list of changes to [settings]. *)
Definition settingsChanges (cs : list SettingsChange) (s : State) : State :=
  foldl (λ s c, final (settingsChange c s)) s cs.

(** A state up to the count of entries into [destroy]. *)
Definition uncounted (s : State) : State := with_destroyCalls 0 s.

(** The calls [destroy] makes for a table of clients. *)
Definition destroyTrace (cs : Clients) : list (Role * Call) :=
  flat_map (λ key, match client_at key cs with
                   | Some _ => [(key, RemoveAllListeners); (key, Disconnect)]
                   | None => []
                   end) keys.

Definition liveKeys (cs : Clients) : list Role :=
  filter (λ key, is_Some (client_at key cs)) keys.

(** The state [destroy] ends in. *)
Definition destroyed (s : State) : State :=
  {| heap := heap s; settings := settings s; clients := noClients; ee := ee s;
     trace := trace s ++ destroyTrace (clients s);
     observer := observer s;
     changes := changes s ++ match observer s with
                             | Some _ => liveKeys (clients s)
                             | None => []
                             end;
     destroyCalls := S (destroyCalls s) |}.

Definition arrayAt (h : list (list value)) (l : loc) : list value := default [] (h !! l).

Definition optsFor (key : Role) (o : ClientSettings) (l : loc) : ClientSettings :=
  {| o_debug := o_debug o;
     o_random := if decide (key = whisper) then "group" else o_random o;
     o_timeout := o_timeout o; o_reconnect := o_reconnect o;
     o_identity := o_identity o; o_channels := l |}.

(** The state [createClient] ends in. *)
Definition clientCreated (o : ClientSettings) (key : Role) (s : State) : State :=
  let n := length (heap s) in
  let d := arrayAt (heap s) (o_channels o) in
  let l := if decide (key = whisper) then S n else n in
  let opts := optsFor key o l in
  {| heap := heap s ++ (if decide (key = whisper) then [d; []; []] else [d; d]);
     settings := settings s;
     clients := put_client key (Some {| c_key := key; c_opts := opts; c_listeners := [];
                                        tcCurrentChannels := S l |}) (clients s);
     ee := ee s;
     trace := trace s ++ [(key, New opts); (key, Connect)];
     observer := observer s;
     changes := changes s ++ match observer s with Some _ => [key] | None => [] end;
     destroyCalls := destroyCalls s |}.

Definition addListeners (key : Role) (ls : list Listener) (s : State) : State :=
  match client_at key (clients s) with
  | Some c => with_clients (put_client key (Some (with_listeners (c_listeners c ++ ls) c)) (clients s)) s
  | None => s
  end.

(** The state [create] ends in. *)
Definition created (s : State) : State :=
  let o := clientSettings s in
  let s1 := with_ee (with_badLogin (VBool false) (ee s)) (destroyed s) in
  let s2 := clientCreated o whisper (clientCreated o write (clientCreated o read s1)) in
  addListeners read (baseListeners ++ [suppressor])
    (addListeners whisper [listener "whisper" (HForward "whisper")] s2).

(** A property of the state that a computation keeps, whether it returns
    or throws. *)
Definition preserves {A} (P : State → Prop) (m : M A) : Prop :=
  ∀ s, P s → P (final (m s)).

(** The number of [connect()] calls among the calls on a client. *)
Definition connects (calls : list Call) : nat :=
  length (filter (λ c, c = Connect) calls).


(** The state after the calls [calls] on [key] that leave [v] in array [l]. *)
Definition synced (key : Role) (calls : list Call) (l : loc) (v : list value)
    (s : State) : State :=
  with_trace (trace s ++ map (λ c, (key, c)) calls) (with_heap (<[l := v]> (heap s)) s).


(** The joined array of the client under [key] has no channel twice. *)
Definition noRepeats (key : Role) (s : State) : Prop :=
  ∃ J, joinedChannels key s = Some J ∧ NoDup J.

(** The calls [joinChannels] and then [leaveChannels] make on a client. *)
Definition sessionCalls (D J : list value) : list Call :=
  map Join (joinsOf D J) ++ map Part (partsOf D J).

(** [separateArrays], decided. *)
Definition separateArraysb (s : State) : bool :=
  match client_at read (clients s), client_at write (clients s) with
  | Some cr, Some cw =>
      bool_decide (is_Some (heap s !! channels (settings s))) &&
      bool_decide (is_Some (heap s !! tcCurrentChannels cr)) &&
      bool_decide (is_Some (heap s !! tcCurrentChannels cw)) &&
      bool_decide (tcCurrentChannels cr ≠ channels (settings s)) &&
      bool_decide (tcCurrentChannels cw ≠ channels (settings s)) &&
      bool_decide (tcCurrentChannels cr ≠ tcCurrentChannels cw)
  | _, _ => false
  end.

Definition allWirings : list (list Listener) := armedWirings ++ spentWirings.

(** The state after [ee] has emitted one more event. *)
Definition relayed (event : string) (args : list value) (s : State) : State :=
  with_ee (with_emitted (emitted (ee s) ++ [(event, args)]) (ee s)) s.

(** The listeners [create] leaves on the write and whisper clients. *)
Definition sideWired (s : State) : Prop :=
  ∃ cw cwh, client_at write (clients s) = Some cw ∧ c_listeners cw = [] ∧
            client_at whisper (clients s) = Some cwh ∧
            c_listeners cwh = [listener "whisper" (HForward "whisper")].

(** The read client carries the bad-login check once and the write and
    whisper clients their own listeners, or there is no client at all. *)
Definition steady (s : State) : Prop :=
  noneLive s ∨ (wired checkedWirings s ∧ sideWired s).

(** Kinds of calls. *)
Definition isNew (c : Call) : bool :=
  match c with New _ => true | _ => false end.
Definition isDisconnect (c : Call) : bool :=
  match c with Disconnect => true | _ => false end.
Definition isJoinOrPart (c : Call) : bool :=
  match c with Join _ | Part _ => true | _ => false end.

(** How many calls of a kind a trace holds for the clients under [key]. *)
Definition countCalls (p : Call → bool) (key : Role) (tr : list (Role * Call)) : nat :=
  length (filter (λ c, p c = true) (callsOn key tr)).

(** Every client ever constructed under a key has been disconnected, except
    the one the table holds. *)
Definition balanced (s : State) : Prop :=
  ∀ key, countCalls isNew key (trace s)
         = countCalls isDisconnect key (trace s)
           + match client_at key (clients s) with Some _ => 1 | None => 0 end.

(** The constructions and disconnections of a trace, in order. *)
Definition lifecycle (tr : list (Role * Call)) : list (Role * Call) :=
  filter (λ e, isNew e.2 = true ∨ isDisconnect e.2 = true) tr.

(** What stays of a state when [syncChannels] runs: everything but the
    arrays and the trace. *)
Definition syncFrame (s0 t : State) : Prop :=
  clients t = clients s0 ∧ ee t = ee s0 ∧ settings t = settings s0 ∧
  observer t = observer s0 ∧ changes t = changes s0 ∧
  destroyCalls t = destroyCalls s0 ∧
  length (heap t) = length (heap s0) ∧
  ∃ calls, trace t = trace s0 ++ calls ∧
           Forall (λ e, e.1 ≠ whisper ∧ isJoinOrPart e.2 = true) calls.

(** The operations that neither build nor tear down clients by themselves:
    events of the transport clients, the public members, reconciliation and
    changes of the settings. *)
Definition runtimeOp (op : Op) : bool :=
  match op with
  | OEmit _ _ _ | OSay _ _ | OWhisper _ _ | OIsMod _ _ | OSyncChannels
  | OChannelsWatch _ _ | OSettings _ => true
  | _ => false
  end.

(** A listener that only re-emits on [ee]. *)
Definition forwarding (l : Listener) : Prop :=
  l_once l = false ∧ ∃ event, l_fn l = HForward event.

(** ** The run of the page *)

(** A turn of the event loop: an operation of the provider, then the
    delivery of the change records it has queued, which [Object.observe]
    performs before the next event is taken. *)
Definition turn (tmi_isMod : Client → value → value → value) (op : Op) (s : State) : State :=
  final (deliverChanges (final (step tmi_isMod op s))).

(** The handlers given to [$watch] by [onValidCredentials(create)] and
    [onInvalidCredentials(destroy)]. *)
Definition credentialsWatch (op : Op) : bool :=
  match op with
  | OValidWatch _ _ | OInvalidWatch _ _ => true
  | _ => false
  end.

(** The states a page is in between two turns.  The body of the factory
    runs once, on the fresh page.  After it come, in any order and number,
    events of the transport clients, calls of the public members, changes
    of the settings and calls of the watchers, with any arguments. *)
Inductive reached (tmi_isMod : Client → value → value → value) : State → Prop :=
| reached_load i chans :
    reached tmi_isMod (turn tmi_isMod OSetup (initial i chans))
| reached_turn s op :
    reached tmi_isMod s → runtimeOp op || credentialsWatch op = true →
    reached tmi_isMod (turn tmi_isMod op s).

(** The listener lists of a read client that [create] has put in the place
    of another while the table was observed: the record of the client
    dropped and that of the new one are delivered together, and each
    attaches a bad-login check to the new client. *)
Definition recheckedWirings : list (list Listener) :=
  [[suppressor; badLoginCheck; badLoginCheck];
   [badLoginCheck; badLoginCheck; suppressor];
   [badLoginCheck; badLoginCheck; rearm]].

Definition guardedWirings : list (list Listener) := checkedWirings ++ recheckedWirings.

(** What an operation that only calls the transport clients or re-emits on
    [ee] leaves as it was: the table of clients with their listeners, the
    observer and its pending records, and the flags of [ee]. *)
Definition undisturbed (s s' : State) : Prop :=
  clients s' = clients s ∧ observer s' = observer s ∧ changes s' = changes s ∧
  ready (ee s') = ready (ee s) ∧ badLogin (ee s') = badLogin (ee s).

(** A read client that carries the bad-login check, beside the write and
    whisper clients, with no bad login recorded. *)
Definition guarded (s : State) : Prop :=
  wired guardedWirings s ∧ sideWired s ∧ badLogin (ee s) = VBool false.

(** What holds between two turns: the observer of the table is registered
    and no change record is pending; either there is no client, or the
    three clients are there, the read client guarded. *)
Definition settled (s : State) : Prop :=
  observer s = Some CbDestroy ∧ changes s = [] ∧ (noneLive s ∨ guarded s).

(** * Proofs *)

(** Symbolic execution of the monadic code: everything unfolds except the
    list operations on arrays, traces and stores, and the comparison of an
    event's reason with the bad-login string. *)
Ltac run :=
  cbv -[app length lookup list_lookup from_option id arrayAt Nat.add Nat.sub
        insert list_insert delete list_delete elem_of
        value_eq_dec reasonOf badLoginReason].

Lemma lookup_snoc {A} (l : list A) (x : A) : (l ++ [x]) !! length l = Some x.
Proof. rewrite lookup_app_r by lia. by rewrite Nat.sub_diag. Qed.

Lemma bind_ok {A B} (m : M A) (f : A → M B) s a s' :
  m s = Ok a s' → (m ≫= f) s = f a s'.
Proof. intros H. unfold mbind, M_bind. by rewrite H. Qed.

Lemma bind_err {A B} (m : M A) (f : A → M B) s e s' :
  m s = Err e s' → (m ≫= f) s = Err e s'.
Proof. intros H. unfold mbind, M_bind. by rewrite H. Qed.

(** ** [destroy] and [create] as state transformers *)

Lemma destroy_spec s : destroy s = Ok () (destroyed s).
Proof.
  destruct s as [h st [[r|] [w|] [wh|]] e tr [o|] ch n]; cbv -[app];
    rewrite <- ?app_assoc, ?app_nil_r; reflexivity.
Qed.

Lemma createClient_spec o key s : createClient o key s = Ok () (clientCreated o key s).
Proof.
  destruct s as [h st [r w wh] e tr ob chs n], o as [dbg rnd tmo rc [u p] l].
  destruct key, ob, r, w, wh; run;
    rewrite ?length_app; simpl length; rewrite ?Nat.add_1_r;
    rewrite ?lookup_snoc; simpl;
    rewrite <- ?app_assoc, ?app_nil_r; simpl; try reflexivity.
  all: rewrite lookup_app_r by (simpl; lia);
    replace (S (length h) - length h) with 1 by lia; reflexivity.
Qed.

Lemma create_spec s : create s = Ok () (created s).
Proof.
  unfold create.
  rewrite (bind_ok _ _ _ _ _ (destroy_spec s)).
  unfold setBadLogin, modify, get, keys, forEach.
  unfold mbind at 1, M_bind at 1. unfold mbind at 1, M_bind at 1.
  set (s1 := with_ee _ (destroyed s)).
  replace (clientSettings s1) with (clientSettings s) by (by destruct s).
  set (o := clientSettings s).
  erewrite bind_ok; last first.
  { erewrite bind_ok by apply createClient_spec.
    erewrite bind_ok by apply createClient_spec.
    erewrite bind_ok by apply createClient_spec.
    reflexivity. }
  unfold created. fold o. fold s1.
  set (s2 := clientCreated o whisper _).
  destruct s as [h st [r w wh] e tr ob chs n]. subst s2 s1 o.
  destruct ob; run; reflexivity.
Qed.

(** ** Properties kept by every computation built from kept steps *)

Section Preserves.
Context (P : State → Prop).

Lemma preserves_ret {A} (a : A) : preserves P (mret a).
Proof. by intros s Hs. Qed.

Lemma preserves_throw {A} e : preserves P (throw e : M A).
Proof. by intros s Hs. Qed.

Lemma preserves_bind {A B} (m : M A) (f : A → M B) :
  preserves P m → (∀ a, preserves P (f a)) → preserves P (m ≫= f).
Proof.
  intros Hm Hf s Hs. specialize (Hm s Hs).
  unfold mbind, M_bind. destruct (m s) as [a s'|e s']; simpl in *; [by apply Hf|done].
Qed.

Lemma preserves_forEach {A} (l : list A) (f : A → M unit) :
  (∀ x, preserves P (f x)) → preserves P (forEach l f).
Proof.
  intros Hf. induction l as [|x l IH]; simpl.
  - apply preserves_ret.
  - apply preserves_bind; [apply Hf|intros _; apply IH].
Qed.

Lemma preserves_get : preserves P get.
Proof. by intros s Hs. Qed.

Lemma preserves_getClient key : preserves P (getClient key).
Proof. by intros s Hs. Qed.

Lemma preserves_theClient key : preserves P (theClient key).
Proof. intros s Hs. unfold theClient, getClient, mbind, M_bind. by destruct (client_at key (clients s)). Qed.

Lemma preserves_readArray l : preserves P (readArray l).
Proof. by intros s Hs. Qed.

Lemma preserves_modify (f : State → State) :
  (∀ s, P s → P (f s)) → preserves P (modify f).
Proof. intros Hf s Hs. by apply Hf. Qed.
End Preserves.

(** Breaks a computation down to its primitive steps. *)
Ltac preserves_steps :=
  repeat lazymatch goal with
    | |- preserves _ (mret _) => apply preserves_ret
    | |- preserves _ (throw _) => apply preserves_throw
    | |- preserves _ get => apply preserves_get
    | |- preserves _ (getClient _) => apply preserves_getClient
    | |- preserves _ (theClient _) => apply preserves_theClient
    | |- preserves _ (readArray _) => apply preserves_readArray
    | |- preserves _ (mbind _ _) => apply preserves_bind; [|intros ?]
    | |- preserves _ (forEach _ _) => apply preserves_forEach; intros ?
    | |- preserves _ (match ?x with _ => _ end) => destruct x
    end.

(** ** The table of clients is all-or-none *)

Lemma liveness_put_some key c' cs k :
  is_Some (client_at key cs) →
  is_Some (client_at k (put_client key (Some c') cs)) ↔ is_Some (client_at k cs).
Proof. destruct cs as [r w wh], key, k; simpl; intros [c ->]; split; eauto. Qed.

Lemma allOrNone_ext s s' :
  (∀ k, is_Some (client_at k (clients s')) ↔ is_Some (client_at k (clients s))) →
  allOrNone s → allOrNone s'.
Proof.
  intros H [Ha|Hn]; [left|right]; intros k.
  - apply H, Ha.
  - specialize (Hn k). specialize (H k). destruct (client_at k (clients s')); [|done].
    destruct H as [H _]. rewrite Hn in H. destruct H as [? H]; [eauto|done].
Qed.

Lemma allOrNone_modify (f : State → State) :
  (∀ s, clients (f s) = clients s) → preserves allOrNone (modify f).
Proof. intros Hf. apply preserves_modify. intros s. apply allOrNone_ext. intros k. by rewrite Hf. Qed.

Create HintDb shape.
#[local] Hint Extern 1 (preserves allOrNone (modify _)) =>
  apply allOrNone_modify; done : shape.

(** Splits a computation into its steps and closes them from the hints. *)
Ltac shape := preserves_steps; eauto with shape.

Lemma allOrNone_call key c : preserves allOrNone (call key c).
Proof. unfold call. shape. Qed.

Lemma allOrNone_writeArray l v : preserves allOrNone (writeArray l v).
Proof. by apply allOrNone_modify. Qed.

Lemma allOrNone_allocArray v : preserves allOrNone (allocArray v).
Proof. intros s. apply allOrNone_ext. done. Qed.

Lemma allOrNone_setListeners key ls : preserves allOrNone (setListeners key ls).
Proof.
  intros s. unfold setListeners, theClient, getClient, mbind, M_bind, mret, M_ret, throw, modify.
  destruct (client_at key (clients s)) as [c|] eqn:Hc; simpl; [|done].
  apply allOrNone_ext. intros k. simpl. apply liveness_put_some. by rewrite Hc.
Qed.

#[local] Hint Resolve allOrNone_call allOrNone_writeArray allOrNone_allocArray
  allOrNone_setListeners : shape.

Lemma allOrNone_addListener key event fn : preserves allOrNone (addListener key event fn).
Proof. unfold addListener. shape. Qed.

Lemma allOrNone_once key event fn : preserves allOrNone (once key event fn).
Proof. unfold once. shape. Qed.

Lemma allOrNone_removeListener key l : preserves allOrNone (removeListener key l).
Proof. unfold removeListener, skip. shape. Qed.

Lemma allOrNone_destroy : preserves allOrNone destroy.
Proof. intros s _. rewrite destroy_spec. right. by intros []. Qed.

Lemma allOrNone_create : preserves allOrNone create.
Proof.
  intros s _. rewrite create_spec. left.
  destruct s as [h st [r w wh] e tr ob chs n]. intros []; run; eauto.
Qed.

#[local] Hint Resolve allOrNone_addListener allOrNone_once allOrNone_removeListener
  allOrNone_destroy allOrNone_create : shape.

Lemma allOrNone_joinChannels key : preserves allOrNone (joinChannels key).
Proof. unfold joinChannels, joinChannel, skip. shape. Qed.

Lemma allOrNone_leaveLoop n key : preserves allOrNone (leaveLoop n key).
Proof. induction n as [|i IH]; simpl; unfold skip; shape. Qed.

#[local] Hint Resolve allOrNone_joinChannels allOrNone_leaveLoop : shape.

Lemma allOrNone_syncChannels : preserves allOrNone syncChannels.
Proof. unfold syncChannels, leaveChannels. shape. Qed.

#[local] Hint Resolve allOrNone_syncChannels : shape.

Lemma allOrNone_callback cb : preserves allOrNone (run_callback cb).
Proof. destruct cb; simpl; shape. Qed.

#[local] Hint Resolve allOrNone_callback : shape.

Lemma allOrNone_handler h args : preserves allOrNone (run_handler h args).
Proof.
  destruct h; simpl; unfold skip, ee_emit, setBadLogin, setPassword, setReady,
    onlyEmitDisconnectedOnce; shape.
Qed.

#[local] Hint Resolve allOrNone_handler : shape.

Lemma allOrNone_callListeners key ls args : preserves allOrNone (callListeners key ls args).
Proof. induction ls as [|l ls IH]; simpl; unfold skip; shape. Qed.

#[local] Hint Resolve allOrNone_callListeners : shape.

Lemma allOrNone_emit key event args : preserves allOrNone (emit key event args).
Proof. unfold emit, skip. shape. Qed.

Lemma allOrNone_deliverChanges : preserves allOrNone deliverChanges.
Proof.
  unfold deliverChanges, observerCallback, attachBadLoginCheck, on, skip. shape.
Qed.

Lemma allOrNone_settingsChange c : preserves allOrNone (settingsChange c).
Proof. destruct c; simpl; shape. Qed.

#[local] Hint Resolve allOrNone_emit allOrNone_deliverChanges allOrNone_settingsChange : shape.

Lemma allOrNone_step tmi_isMod op : preserves allOrNone (step tmi_isMod op).
Proof.
  destruct op; simpl;
    unfold setup, onBadLogin, attachBadLoginCheck, on, ee_say, ee_whisper, ee_isMod,
      onValidCredentials, onInvalidCredentials, onCredentialsValidChange,
      onChannelsChange, skip; shape.
Qed.

(** ** Teardown *)

Lemma issued_app s s' calls : trace s' = trace s ++ calls → issued s s' = calls.
Proof. intros H. unfold issued. rewrite H. apply drop_app_length. Qed.

Lemma destroyed_issued s : issued s (destroyed s) = destroyTrace (clients s).
Proof. by apply issued_app. Qed.

Lemma destroyed_again s :
  uncounted (destroyed (destroyed s)) = uncounted (destroyed s).
Proof.
  destruct s as [h st cs e tr [o|] chs n]; unfold uncounted, destroyed; simpl;
    by rewrite !app_nil_r.
Qed.

(** C8. [destroy()] never throws and leaves no client in the table.  On
    each client that was there it calls [removeAllListeners()] and then
    [disconnect()], and nothing else; the store, the settings and the
    emitter are as before.  With an empty table it changes nothing, and a
    second [destroy()] right after a first changes nothing either (states
    are compared up to the count of entries into [destroy]). *)
Theorem destroy_idempotent (s : State) :
  threw (destroy s) = false ∧
  noneLive (final (destroy s)) ∧
  (∀ key, callsOn key (issued s (final (destroy s))) =
          match client_at key (clients s) with
          | Some _ => [RemoveAllListeners; Disconnect]
          | None => []
          end) ∧
  heap (final (destroy s)) = heap s ∧
  settings (final (destroy s)) = settings s ∧
  ee (final (destroy s)) = ee s ∧
  uncounted (final (destroy (with_clients noClients s))) = uncounted (with_clients noClients s) ∧
  uncounted (final (destroy (final (destroy s)))) = uncounted (final (destroy s)).
Proof.
  rewrite !destroy_spec. simpl final. rewrite ?destroy_spec. simpl final.
  split; [done|]. split; [by intros []|]. split.
  { intros key. rewrite destroyed_issued.
    destruct s as [h st [[r|] [w|] [wh|]] e tr o chs n], key; reflexivity. }
  repeat split.
  - destruct s as [h st cs e tr [o|] chs n]; unfold uncounted, destroyed; simpl;
      by rewrite !app_nil_r.
  - apply destroyed_again.
Qed.

(** ** Creation *)

Lemma created_issued s :
  ∃ cr cw cwh,
    clients (created s) = {| cl_read := Some cr; cl_write := Some cw; cl_whisper := Some cwh |} ∧
    issued s (created s) =
      destroyTrace (clients s) ++
      [(read, New (c_opts cr)); (read, Connect);
       (write, New (c_opts cw)); (write, Connect);
       (whisper, New (c_opts cwh)); (whisper, Connect)] ∧
    o_random (c_opts cr) = "chat" ∧ o_random (c_opts cw) = "chat" ∧
    o_random (c_opts cwh) = "group" ∧
    heap (created s) !! o_channels (c_opts cwh) = Some [].
Proof.
  destruct s as [h st cs e tr ob chs n].
  eexists _, _, _. split; [reflexivity|]. split.
  { apply issued_app. simpl. by rewrite <- !app_assoc. }
  repeat split. simpl.
  rewrite !length_app. simpl length.
  rewrite <- !app_assoc. simpl.
  rewrite lookup_app_r by lia.
  match goal with |- context [?a - ?b] => replace (a - b) with 5 by lia end.
  reflexivity.
Qed.

(** C6. The table of clients is all-or-none.  [create()] never throws and
    fills the three keys; what it asks of the transport, after the teardown
    of the clients that were there, is one construction and one [connect()]
    per key, in the order read, write, whisper; the whisper client is built
    with the "group" connection and an empty channel array, the other two
    with "chat".  [destroy()] empties the table.  And from a state where the
    table is full or empty, every operation ends, returning or throwing, in
    a state where it is full or empty. *)
Theorem session_set_all_or_none
    (tmi_isMod : Client → value → value → value) (s : State) (op : Op) :
  allOrNone s →
  (threw (create s) = false ∧ allLive (final (create s)) ∧
   (∃ cr cw cwh,
      clients (final (create s)) =
        {| cl_read := Some cr; cl_write := Some cw; cl_whisper := Some cwh |} ∧
      issued s (final (create s)) =
        destroyTrace (clients s) ++
        [(read, New (c_opts cr)); (read, Connect);
         (write, New (c_opts cw)); (write, Connect);
         (whisper, New (c_opts cwh)); (whisper, Connect)] ∧
      o_random (c_opts cr) = "chat" ∧ o_random (c_opts cw) = "chat" ∧
      o_random (c_opts cwh) = "group" ∧
      heap (final (create s)) !! o_channels (c_opts cwh) = Some []) ∧
   (∀ key, connects (callsOn key (issued s (final (create s)))) = 1)) ∧
  (threw (destroy s) = false ∧ noneLive (final (destroy s))) ∧
  allOrNone (final (step tmi_isMod op s)).
Proof.
  intros Hs. split; [|split].
  - rewrite create_spec. simpl final. split; [done|]. split.
    { pose proof (allOrNone_create s Hs) as [H|H]; rewrite create_spec in H; simpl in H; [done|].
      specialize (H read). destruct s as [h st [r w wh] e tr ob chs n]. discriminate H. }
    split; [apply created_issued|].
    intros key. destruct (created_issued s) as (cr & cw & cwh & _ & -> & _).
    destruct s as [h st [[r|] [w|] [wh|]] e tr ob chs n], key; reflexivity.
  - rewrite destroy_spec. split; [done|]. by intros [].
  - by apply allOrNone_step.
Qed.

(** Witness of C6: a page that has just run its setup with valid
    credentials, then receives a bad-login "disconnected" on the read
    client. *)
Lemma session_set_all_or_none_witness :
  let s := final (setup (initial {| username := "bob"; password := "pw" |} [VStr "#a"])) in
  allLive s ∧
  allOrNone (final (step (λ _ _ _, VBool false)
                      (OEmit read "disconnected" [badLoginReason]) s)) ∧
  allLive (final (create s)).
Proof.
  intros s.
  assert (Ha : allLive s) by (intros []; vm_compute; eauto).
  destruct (session_set_all_or_none (λ _ _ _, VBool false) s
              (OEmit read "disconnected" [badLoginReason]) (or_introl Ha))
    as ((_ & Hc & _) & _ & Hop).
  exact (conj Ha (conj Hop Hc)).
Defined.

(** ** Public members *)

(** C10. With a full table, [say] and [whisper] pass their two arguments
    unchanged to the write and to the whisper client, and [isMod] returns
    what the write client answers for the same two arguments; nothing else
    changes.  With an empty table each of the three throws a [TypeError]
    and gives no result. *)
Theorem public_members_delegate
    (tmi_isMod : Client → value → value → value) (s : State) (x y : value) :
  allOrNone s →
  (∀ cw, client_at write (clients s) = Some cw →
     ee_say x y s = Ok () (with_trace (trace s ++ [(write, Say x y)]) s) ∧
     ee_whisper x y s = Ok () (with_trace (trace s ++ [(whisper, Whisper x y)]) s) ∧
     ee_isMod tmi_isMod x y s =
       Ok (tmi_isMod cw x y) (with_trace (trace s ++ [(write, IsMod x y)]) s)) ∧
  (client_at write (clients s) = None →
     ee_say x y s = Err TypeError s ∧
     ee_whisper x y s = Err TypeError s ∧
     ee_isMod tmi_isMod x y s = Err TypeError s).
Proof.
  intros Hs. split.
  - intros cw Hw. destruct Hs as [Ha|Hn]; [|by rewrite Hn in Hw].
    destruct (Ha whisper) as [cwh Hwh]. 
    destruct s as [h st [r w wh] e tr ob chs n]. simpl in *. subst. done.
  - intros Hw. destruct Hs as [Ha|Hn]; [destruct (Ha write) as [? H]; congruence|].
    pose proof (Hn whisper) as Hwh.
    destruct s as [h st [r w wh] e tr ob chs n]. simpl in *. subst. done.
Qed.

(** Witness of C10: after [create] the three members reach their clients;
    on a fresh page with nothing created they throw. *)
Lemma public_members_delegate_witness :
  let s0 := initial {| username := ""; password := "" |} [] in
  let s := final (create s0) in
  let x := VStr "#a" in
  let y := VStr "hi" in
  (∃ cw, ee_say x y s = Ok () (with_trace (trace s ++ [(write, Say x y)]) s) ∧
         ee_isMod (λ _ _ _, VBool true) x y s =
           Ok (VBool true) (with_trace (trace s ++ [(write, IsMod x y)]) s) ∧
         client_at write (clients s) = Some cw) ∧
  ee_say x y s0 = Err TypeError s0 ∧
  ee_whisper x y s0 = Err TypeError s0.
Proof.
  intros s0 s x y.
  assert (Hs : allOrNone s) by (left; intros []; vm_compute; eauto).
  assert (Hs0 : allOrNone s0) by (right; intros []; reflexivity).
  destruct (public_members_delegate (λ _ _ _, VBool true) s x y Hs) as [Hlive _].
  destruct (public_members_delegate (λ _ _ _, VBool true) s0 x y Hs0) as [_ Hnone].
  destruct (Hnone eq_refl) as (Hsay0 & Hwh0 & _).
  destruct (client_at write (clients s)) as [cw|] eqn:Hw;
    [|vm_compute in Hw; discriminate Hw].
  destruct (Hlive cw eq_refl) as (Hsay & _ & Hmod).
  exact (conj (ex_intro _ cw (conj Hsay (conj Hmod eq_refl))) (conj Hsay0 Hwh0)).
Defined.

(** ** Reconciliation without clients *)

Lemma joinChannels_null key s :
  client_at key (clients s) = None →
  joinChannels key s = Ok () s ∧ arrayAt (heap s) (channels (settings s)) = []
  ∨ joinChannels key s = Err TypeError s.
Proof.
  intros Hk. unfold joinChannels, get, readArray, mbind, M_bind.
  fold (arrayAt (heap s) (channels (settings s))).
  destruct (arrayAt (heap s) (channels (settings s))) as [|channel D]; simpl.
  - by left.
  - right. unfold joinChannel, theClient, getClient, mbind, M_bind. by rewrite Hk.
Qed.

Lemma leaveChannels_null key s :
  client_at key (clients s) = None → leaveChannels key s = Err TypeError s.
Proof.
  intros Hk. unfold leaveChannels, theClient, getClient, mbind, M_bind. by rewrite Hk.
Qed.

(** C7, as the code has it.  With no client in the table [syncChannels()]
    throws a [TypeError]: it reads [tcCurrentChannels] of the [null] held
    under [read].  The state is untouched, so no join or part is issued,
    and the watcher of the channel list throws with it whenever the list
    has changed. *)
Theorem syncChannels_without_clients (s : State) (newV oldV : loc) :
  noneLive s → newV ≠ oldV →
  syncChannels s = Err TypeError s ∧
  onChannelsChange CbSyncChannels newV oldV s = Err TypeError s.
Proof.
  intros Hn Hne.
  assert (Hsync : syncChannels s = Err TypeError s).
  { unfold syncChannels. simpl forEach.
    apply bind_err.
    destruct (joinChannels_null read s (Hn read)) as [[Hj _]|Hj].
    - rewrite (bind_ok _ _ _ _ _ Hj). by apply leaveChannels_null.
    - by apply bind_err. }
  split; [done|].
  unfold onChannelsChange. destruct (decide (newV ≠ oldV)); [done|contradiction].
Qed.

(** Witness of C7: a fresh page without credentials, whose channel list has
    just been given a first channel. *)
Lemma syncChannels_without_clients_witness :
  let s := initial {| username := "bob"; password := "" |} [VStr "#a"] in
  syncChannels s = Err TypeError s ∧
  onChannelsChange CbSyncChannels 0 1 s = Err TypeError s.
Proof.
  apply (syncChannels_without_clients
           (initial {| username := "bob"; password := "" |} [VStr "#a"]) 0 1).
  - intros []; reflexivity.
  - lia.
Defined.

(** ** Reconciliation: the two loops as list functions *)

Lemma theClient_ok key c s :
  client_at key (clients s) = Some c → theClient key s = Ok c s.
Proof. intros H. unfold theClient, getClient, mbind, M_bind. by rewrite H. Qed.

Lemma call_ok key c x s :
  client_at key (clients s) = Some c →
  call key x s = Ok () (with_trace (trace s ++ [(key, x)]) s).
Proof. intros H. unfold call. by rewrite (bind_ok _ _ _ _ _ (theClient_ok _ _ _ H)). Qed.

Lemma readArray_ok l v s : heap s !! l = Some v → readArray l s = Ok v s.
Proof. intros H. unfold readArray. by rewrite H. Qed.

Lemma synced_id key l v s : heap s !! l = Some v → synced key [] l v s = s.
Proof.
  intros H. unfold synced. destruct s; simpl in *.
  by rewrite app_nil_r, list_insert_id.
Qed.

Lemma synced_synced key calls1 calls2 l v1 v2 s :
  synced key calls2 l v2 (synced key calls1 l v1 s) = synced key (calls1 ++ calls2) l v2 s.
Proof.
  unfold synced. destruct s; simpl.
  by rewrite list_insert_insert_eq, map_app, app_assoc.
Qed.

Lemma synced_lookup key calls l v s :
  is_Some (heap s !! l) → heap (synced key calls l v s) !! l = Some v.
Proof. intros H. simpl. apply list_lookup_insert_eq. by apply lookup_lt_is_Some. Qed.

Lemma synced_lookup_ne key calls l l' v s :
  l ≠ l' → heap (synced key calls l v s) !! l' = heap s !! l'.
Proof. intros H. simpl. by apply list_lookup_insert_ne. Qed.

Lemma joinChannel_spec key c channel s J :
  client_at key (clients s) = Some c →
  heap s !! tcCurrentChannels c = Some J →
  joinChannel key channel s =
    Ok () (if notIndexOf J channel
           then synced key [Join channel] (tcCurrentChannels c) (J ++ [channel]) s
           else s).
Proof.
  intros Hc HJ. unfold joinChannel.
  rewrite (bind_ok _ _ _ _ _ (theClient_ok _ _ _ Hc)).
  rewrite (bind_ok _ _ _ _ _ (readArray_ok _ _ _ HJ)).
  destruct (notIndexOf J channel); [|reflexivity].
  rewrite (bind_ok _ _ _ _ _ (call_ok _ _ _ _ Hc)). reflexivity.
Qed.

Lemma joinChannels_loop key c D : ∀ s J,
  client_at key (clients s) = Some c →
  heap s !! tcCurrentChannels c = Some J →
  forEach D (joinChannel key) s =
    Ok () (synced key (map Join (joinsOf D J)) (tcCurrentChannels c) (J ++ joinsOf D J) s).
Proof.
  induction D as [|channel D IH]; intros s J Hc HJ; simpl.
  - rewrite app_nil_r. by rewrite synced_id.
  - rewrite (bind_ok _ _ _ _ _ (joinChannel_spec _ _ _ _ _ Hc HJ)).
    destruct (notIndexOf J channel).
    + rewrite (IH _ (J ++ [channel])).
      * rewrite synced_synced. simpl. by rewrite <- app_assoc.
      * done.
      * apply synced_lookup. by rewrite HJ.
    + by apply IH.
Qed.

Lemma leaveLoop_spec key c D n : ∀ s J,
  client_at key (clients s) = Some c →
  heap s !! tcCurrentChannels c = Some J →
  heap s !! channels (settings s) = Some D →
  tcCurrentChannels c ≠ channels (settings s) →
  n ≤ length J →
  leaveLoop n key s =
    Ok () (synced key (map Part (reverse (filter (λ ch, ch ∉ D) (take n J))))
             (tcCurrentChannels c)
             (filter (λ ch, ch ∈ D) (take n J) ++ drop n J) s).
Proof.
  induction n as [|i IH]; intros s J Hc HJ HD Hne Hn.
  - simpl. rewrite ?drop_0, ?take_0. simpl. by rewrite synced_id.
  - destruct (lookup_lt_is_Some_2 J i) as [channel Hi]; [lia|].
    cbn [leaveLoop].
    rewrite (bind_ok _ _ _ _ _ (theClient_ok _ _ _ Hc)).
    rewrite (bind_ok _ _ _ _ _ (readArray_ok _ _ _ HJ)).
    rewrite Hi. simpl default.
    unfold get at 1. unfold mbind at 1, M_bind at 1.
    rewrite (bind_ok _ _ _ _ _ (readArray_ok _ _ _ HD)).
    rewrite (take_S_r _ _ _ Hi), filter_app, (filter_app _ (take i J)).
    unfold notIndexOf. case_bool_decide as Hch.
    + erewrite bind_ok; last first.
      { rewrite (bind_ok _ _ _ _ _ (call_ok _ _ _ _ Hc)). reflexivity. }
      change (with_heap _ (with_trace _ s))
        with (synced key [Part channel] (tcCurrentChannels c) (delete i J) s).
      rewrite (IH _ (delete i J)).
      * rewrite synced_synced. f_equal.
        rewrite filter_cons_True, filter_nil by done.
        rewrite filter_cons_False, filter_nil, app_nil_r by (by intros ?).
        rewrite reverse_app. simpl.
        rewrite delete_take_drop.
        rewrite take_app_length' by (rewrite length_take; lia).
        rewrite drop_app_length' by (rewrite length_take; lia).
        reflexivity.
      * done.
      * apply synced_lookup. by rewrite HJ.
      * rewrite synced_lookup_ne by done. exact HD.
      * done.
      * rewrite length_delete by (by rewrite Hi). lia.
    + try apply dec_stable in Hch.
      unfold skip. unfold mret at 1, M_ret at 1. unfold mbind at 1, M_bind at 1.
      rewrite (IH _ J) by (done || lia). f_equal.
      rewrite filter_cons_False, filter_nil, app_nil_r by (by intros ?).
      rewrite filter_cons_True, filter_nil by done.
      rewrite <- app_assoc. simpl. by rewrite (drop_S _ _ _ Hi).
Qed.

Lemma filter_all {A} (P : A → Prop) `{!∀ x, Decision (P x)} (l : list A) :
  Forall P l → filter P l = l.
Proof.
  induction 1 as [|x l Hx Hl IH]; [done|].
  by rewrite filter_cons_True, IH.
Qed.

Lemma filter_none {A} (P : A → Prop) `{!∀ x, Decision (P x)} (l : list A) :
  Forall (λ x, ¬ P x) l → filter P l = [].
Proof.
  induction 1 as [|x l Hx Hl IH]; [done|].
  by rewrite filter_cons_False, IH.
Qed.

Lemma joinsOf_elem D : ∀ J x, x ∈ joinsOf D J ↔ x ∈ D ∧ x ∉ J.
Proof.
  induction D as [|channel D IH]; intros J x; simpl.
  - rewrite elem_of_nil. tauto.
  - unfold notIndexOf. case_bool_decide as Hch.
    + rewrite elem_of_cons, IH, !elem_of_cons, elem_of_app, list_elem_of_singleton.
      destruct (decide (x = channel)) as [->|Hx]; intuition congruence.
    + rewrite IH, elem_of_cons.
      destruct (decide (x = channel)) as [->|Hx]; intuition congruence.
Qed.

Lemma joinsOf_NoDup D : ∀ J, NoDup (joinsOf D J).
Proof.
  induction D as [|channel D IH]; intros J; simpl; [constructor|].
  unfold notIndexOf. case_bool_decide; [|apply IH].
  constructor; [|apply IH].
  rewrite joinsOf_elem, elem_of_app, list_elem_of_singleton. tauto.
Qed.

Lemma partsOf_elem D J x : x ∈ partsOf D J ↔ x ∈ J ∧ x ∉ D.
Proof. unfold partsOf. rewrite elem_of_reverse, list_elem_of_filter. tauto. Qed.

Lemma partsOf_NoDup D J : NoDup J → NoDup (partsOf D J).
Proof. intros H. unfold partsOf. rewrite reverse_Permutation. by apply NoDup_filter. Qed.

Lemma length_as_difference (l A B : list value) :
  NoDup l → (∀ x, x ∈ l ↔ x ∈ A ∧ x ∉ B) →
  length l = size (asSet A ∖ asSet B).
Proof.
  intros Hl H. rewrite <- (size_list_to_set (C := gset value) l Hl).
  f_equal. apply set_eq. intros x. unfold asSet.
  rewrite elem_of_difference, !elem_of_list_to_set. apply H.
Qed.

Lemma kept_joined_set D J : asSet (keptOf D J ++ joinsOf D J) = asSet D.
Proof.
  apply set_eq. intros x. unfold asSet, keptOf.
  rewrite !elem_of_list_to_set, elem_of_app, list_elem_of_filter, joinsOf_elem.
  destruct (decide (x ∈ J)); tauto.
Qed.

Lemma joinChannels_spec key c s D J :
  client_at key (clients s) = Some c →
  heap s !! tcCurrentChannels c = Some J →
  heap s !! channels (settings s) = Some D →
  joinChannels key s =
    Ok () (synced key (map Join (joinsOf D J)) (tcCurrentChannels c) (J ++ joinsOf D J) s).
Proof.
  intros Hc HJ HD. unfold joinChannels, get.
  unfold mbind at 1, M_bind at 1.
  rewrite (bind_ok _ _ _ _ _ (readArray_ok _ _ _ HD)).
  by apply joinChannels_loop.
Qed.

Lemma leaveChannels_spec key c s D J :
  client_at key (clients s) = Some c →
  heap s !! tcCurrentChannels c = Some J →
  heap s !! channels (settings s) = Some D →
  tcCurrentChannels c ≠ channels (settings s) →
  leaveChannels key s =
    Ok () (synced key (map Part (partsOf D J)) (tcCurrentChannels c) (keptOf D J) s).
Proof.
  intros Hc HJ HD Hne. unfold leaveChannels.
  rewrite (bind_ok _ _ _ _ _ (theClient_ok _ _ _ Hc)).
  rewrite (bind_ok _ _ _ _ _ (readArray_ok _ _ _ HJ)).
  rewrite (leaveLoop_spec key c D (length J) s J) by done.
  by rewrite firstn_all, drop_all, app_nil_r.
Qed.

Lemma joinsOf_wanted D J : Forall (λ ch, ch ∈ D) (joinsOf D J).
Proof. apply Forall_forall. intros x Hx. by apply joinsOf_elem in Hx as [? _]. Qed.

(** One client, both loops. *)
Lemma syncClient_spec key c s D J :
  client_at key (clients s) = Some c →
  heap s !! tcCurrentChannels c = Some J →
  heap s !! channels (settings s) = Some D →
  tcCurrentChannels c ≠ channels (settings s) →
  (joinChannels key ;; leaveChannels key) s =
    Ok () (synced key (sessionCalls D J) (tcCurrentChannels c)
             (keptOf D J ++ joinsOf D J) s).
Proof.
  intros Hc HJ HD Hne.
  rewrite (bind_ok _ _ _ _ _ (joinChannels_spec _ _ _ _ _ Hc HJ HD)).
  rewrite (leaveChannels_spec key c _ D (J ++ joinsOf D J)).
  - rewrite synced_synced. unfold sessionCalls, partsOf, keptOf.
    rewrite !filter_app.
    rewrite (filter_none (λ ch, ch ∉ D) (joinsOf D J)), app_nil_r.
    + by rewrite (filter_all (λ ch, ch ∈ D) (joinsOf D J)) by apply joinsOf_wanted.
    + eapply Forall_impl; [apply joinsOf_wanted|]. by intros x Hx ?.
  - done.
  - apply synced_lookup. by rewrite HJ.
  - by rewrite synced_lookup_ne.
  - done.
Qed.

Lemma syncChannels_spec s cr cw D Jr Jw :
  client_at read (clients s) = Some cr →
  client_at write (clients s) = Some cw →
  heap s !! channels (settings s) = Some D →
  heap s !! tcCurrentChannels cr = Some Jr →
  heap s !! tcCurrentChannels cw = Some Jw →
  tcCurrentChannels cr ≠ channels (settings s) →
  tcCurrentChannels cw ≠ channels (settings s) →
  tcCurrentChannels cr ≠ tcCurrentChannels cw →
  syncChannels s =
    Ok () (synced write (sessionCalls D Jw) (tcCurrentChannels cw) (keptOf D Jw ++ joinsOf D Jw)
             (synced read (sessionCalls D Jr) (tcCurrentChannels cr)
                (keptOf D Jr ++ joinsOf D Jr) s)).
Proof.
  intros Hr Hw HD HJr HJw Hner Hnew Hne.
  unfold syncChannels. cbn [forEach].
  rewrite (bind_ok _ _ _ _ _ (syncClient_spec read cr s D Jr Hr HJr HD Hner)).
  set (s1 := synced read _ _ _ s).
  assert (HJw1 : heap s1 !! tcCurrentChannels cw = Some Jw)
    by (subst s1; by rewrite synced_lookup_ne).
  assert (HD1 : heap s1 !! channels (settings s1) = Some D)
    by (subst s1; by rewrite synced_lookup_ne).
  rewrite (bind_ok _ _ _ _ _ (syncClient_spec write cw s1 D Jw Hw HJw1 HD1 Hnew)).
  reflexivity.
Qed.

Lemma callsOn_tagged key key' calls :
  callsOn key (map (λ c, (key', c)) calls) = if decide (key' = key) then calls else [].
Proof.
  unfold callsOn. destruct (decide (key' = key)) as [->|Hne].
  - induction calls as [|c calls IH]; [done|].
    csimpl. rewrite decide_True by done. by f_equal.
  - induction calls as [|c calls IH]; [done|].
    csimpl. by rewrite decide_False by done.
Qed.

Lemma callsOn_app key l1 l2 : callsOn key (l1 ++ l2) = callsOn key l1 ++ callsOn key l2.
Proof. apply omap_app. Qed.

Lemma joins_of_sessionCalls D J :
  omap (λ c, match c with Join channel => Some channel | _ => None end) (sessionCalls D J)
  = joinsOf D J.
Proof.
  unfold sessionCalls. rewrite omap_app.
  assert (H1 : ∀ l, omap (λ c, match c with Join channel => Some channel | _ => None end)
                      (map Join l) = l).
  { induction l as [|x l IH]; [done|]. csimpl. by f_equal. }
  assert (H2 : ∀ l, omap (λ c, match c with Join channel => Some channel | _ => None end)
                      (map Part l) = []).
  { induction l as [|x l IH]; [done|]. by csimpl. }
  by rewrite H1, H2, app_nil_r.
Qed.

Lemma parts_of_sessionCalls D J :
  omap (λ c, match c with Part channel => Some channel | _ => None end) (sessionCalls D J)
  = partsOf D J.
Proof.
  unfold sessionCalls. rewrite omap_app.
  assert (H1 : ∀ l, omap (λ c, match c with Part channel => Some channel | _ => None end)
                      (map Part l) = l).
  { induction l as [|x l IH]; [done|]. csimpl. by f_equal. }
  assert (H2 : ∀ l, omap (λ c, match c with Part channel => Some channel | _ => None end)
                      (map Join l) = []).
  { induction l as [|x l IH]; [done|]. by csimpl. }
  by rewrite H1, H2.
Qed.

(** What a reconciled client has been asked, and what it ends with. *)
Lemma syncChannels_session s key :
  separateArrays s → key ≠ whisper →
  ∃ D J, desiredChannels s = Some D ∧ joinedChannels key s = Some J ∧
    threw (syncChannels s) = false ∧
    callsOn key (issued s (final (syncChannels s))) = sessionCalls D J ∧
    joinedChannels key (final (syncChannels s)) = Some (keptOf D J ++ joinsOf D J).
Proof.
  intros (cr & cw & Hr & Hw & [D HD] & [Jr HJr] & [Jw HJw] & Hner & Hnew & Hne) Hkey.
  rewrite (syncChannels_spec s cr cw D Jr Jw) by done.
  set (s1 := synced read _ _ _ s). set (s2 := synced write _ _ _ s1).
  assert (Hissued : issued s s2 =
            map (λ c, (read, c)) (sessionCalls D Jr) ++ map (λ c, (write, c)) (sessionCalls D Jw)).
  { apply issued_app. simpl. by rewrite <- app_assoc. }
  assert (HJr2 : heap s2 !! tcCurrentChannels cr = Some (keptOf D Jr ++ joinsOf D Jr)).
  { subst s2. rewrite synced_lookup_ne by done. subst s1. apply synced_lookup. eauto. }
  assert (HJw2 : heap s2 !! tcCurrentChannels cw = Some (keptOf D Jw ++ joinsOf D Jw)).
  { subst s2. apply synced_lookup. subst s1. rewrite synced_lookup_ne by done. eauto. }
  simpl final. rewrite Hissued, callsOn_app, !callsOn_tagged.
  unfold desiredChannels, joinedChannels.
  change (clients s2) with (clients s).
  destruct key; [| |done].
  - exists D, Jr. rewrite Hr. rewrite decide_True, decide_False, app_nil_r by done.
    done.
  - exists D, Jw. rewrite Hw. rewrite decide_False, decide_True by done.
    done.
Qed.

(** C1, as the code has it.  When the arrays of [settings.channels] and of
    the read and write clients are three different arrays and no joined
    array holds a channel twice, [syncChannels()] returns; each of the two
    clients ends with a joined array equal as a set to the desired one, has
    been asked one join per desired channel it had not joined and one part
    per joined channel that is not desired, and no join or part twice. *)
Theorem syncChannels_reconciles (s : State) :
  separateArrays s → noRepeats read s → noRepeats write s →
  threw (syncChannels s) = false ∧
  reconciles read s (final (syncChannels s)) ∧
  reconciles write s (final (syncChannels s)).
Proof.
  intros Hs Hr Hw.
  assert (Hkey : ∀ key, key ≠ whisper → noRepeats key s →
            threw (syncChannels s) = false ∧ reconciles key s (final (syncChannels s))).
  { intros key Hk (J0 & HJ0 & Hnd).
    destruct (syncChannels_session s key Hs Hk) as (D & J & HD & HJ & Hok & Hcalls & HJ').
    assert (J0 = J) as -> by congruence.
    split; [done|]. exists D, J, (keptOf D J ++ joinsOf D J).
    unfold joinsOn, partsOn. rewrite Hcalls, joins_of_sessionCalls, parts_of_sessionCalls.
    repeat split; try done.
    - apply kept_joined_set.
    - apply length_as_difference; [apply joinsOf_NoDup|apply joinsOf_elem].
    - apply length_as_difference; [by apply partsOf_NoDup|apply partsOf_elem].
    - apply joinsOf_NoDup.
    - by apply partsOf_NoDup. }
  destruct (Hkey read ltac:(done) Hr) as [Hok Hrr].
  destruct (Hkey write ltac:(done) Hw) as [_ Hww].
  done.
Qed.

Lemma separateArraysb_true s : separateArraysb s = true → separateArrays s.
Proof.
  unfold separateArraysb, separateArrays.
  destruct (client_at read (clients s)) as [cr|]; [|done].
  destruct (client_at write (clients s)) as [cw|]; [|done].
  rewrite !andb_true_iff, !bool_decide_eq_true.
  intros (((((? & ?) & ?) & ?) & ?) & ?). by exists cr, cw.
Qed.

Lemma noRepeats_by key s J :
  joinedChannels key s = Some J → bool_decide (NoDup J) = true → noRepeats key s.
Proof. intros HJ Hnd. exists J. split; [done|]. by apply bool_decide_eq_true in Hnd. Qed.

(** Witness of C1: a page created with the channels [#a] and [#b], whose
    channel list is then changed in place to [#b] and [#c]. *)
Lemma syncChannels_reconciles_witness :
  let s := final (settingsChange (MutateChannels [VStr "#b"; VStr "#c"])
             (final (create (initial {| username := "bob"; password := "pw" |}
                               [VStr "#a"; VStr "#b"])))) in
  threw (syncChannels s) = false ∧
  reconciles read s (final (syncChannels s)) ∧
  reconciles write s (final (syncChannels s)).
Proof.
  intros s. apply (syncChannels_reconciles s).
  - apply separateArraysb_true. vm_compute. reflexivity.
  - apply (noRepeats_by read s [VStr "#a"; VStr "#b"]); vm_compute; reflexivity.
  - apply (noRepeats_by write s [VStr "#a"; VStr "#b"]); vm_compute; reflexivity.
Defined.

(** C1 as stated fails when a joined array holds a channel twice, as it does
    after a [create] with a channel list that names a channel twice: with an
    empty desired list the read client is asked to part that channel two
    times, where the set difference has one element. *)
Lemma syncChannels_repeated_parts :
  let s := final (settingsChange (MutateChannels [])
             (final (create (initial {| username := "bob"; password := "pw" |}
                               [VStr "#c"; VStr "#c"])))) in
  separateArrays s ∧
  desiredChannels s = Some [] ∧
  joinedChannels read s = Some [VStr "#c"; VStr "#c"] ∧
  partsOn read (issued s (final (syncChannels s))) = [VStr "#c"; VStr "#c"] ∧
  ¬ reconciles read s (final (syncChannels s)).
Proof.
  intros s.
  assert (Hp : partsOn read (issued s (final (syncChannels s))) = [VStr "#c"; VStr "#c"])
    by (vm_compute; reflexivity).
  split; [|split; [|split; [|split]]].
  - apply separateArraysb_true. vm_compute. reflexivity.
  - vm_compute. reflexivity.
  - vm_compute. reflexivity.
  - exact Hp.
  - intros (D & J & J' & _ & _ & _ & _ & _ & _ & _ & Hnd).
    rewrite Hp in Hnd. apply NoDup_cons in Hnd as [Hin _].
    apply Hin. by left.
Qed.

(** Membership in a list written out, element by element. *)
Ltac elems :=
  rewrite ?elem_of_app, ?elem_of_cons, ?elem_of_nil; intuition congruence.

(** C4, as the code has it.  For a client that has joined [b] and [c] when
    the desired list is [a], [b] (three different channels),
    [syncChannels()] asks the client to join [a] first and then to part
    [c]; the client ends with [b], [a], which is the desired list as a
    set. *)
Theorem syncChannels_join_then_part (s : State) (key : Role) (a b c : value) :
  separateArrays s → key ≠ whisper →
  a ≠ b → a ≠ c → b ≠ c →
  desiredChannels s = Some [a; b] →
  joinedChannels key s = Some [b; c] →
  threw (syncChannels s) = false ∧
  callsOn key (issued s (final (syncChannels s))) = [Join a; Part c] ∧
  joinedChannels key (final (syncChannels s)) = Some [b; a] ∧
  asSet [b; a] = asSet [a; b].
Proof.
  intros Hs Hkey Hab Hac Hbc HD HJ.
  destruct (syncChannels_session s key Hs Hkey) as (D & J & HD' & HJ' & Hok & Hcalls & Hend).
  assert (D = [a; b]) as -> by congruence.
  assert (J = [b; c]) as -> by congruence.
  assert (Hjoins : joinsOf [a; b] [b; c] = [a]).
  { simpl. unfold notIndexOf.
    rewrite (bool_decide_eq_true_2 (a ∉ [b; c])) by elems.
    simpl. by rewrite bool_decide_eq_false_2 by elems. }
  assert (Hparts : partsOf [a; b] [b; c] = [c]).
  { unfold partsOf.
    rewrite filter_cons_False by (intros H; apply H; elems).
    by rewrite filter_cons_True by elems. }
  assert (Hkept : keptOf [a; b] [b; c] = [b]).
  { unfold keptOf.
    rewrite filter_cons_True by elems.
    by rewrite filter_cons_False by elems. }
  unfold sessionCalls in Hcalls. rewrite Hjoins, Hparts in Hcalls.
  rewrite Hjoins, Hkept in Hend.
  repeat split; try done.
  apply set_eq. intros x. unfold asSet. rewrite !elem_of_list_to_set. elems.
Qed.

(** Witness of C4: the read client of a page created with [#b], [#c] whose
    channel list is then changed in place to [#a], [#b]. *)
Lemma syncChannels_join_then_part_witness :
  let s := final (settingsChange (MutateChannels [VStr "#a"; VStr "#b"])
             (final (create (initial {| username := "bob"; password := "pw" |}
                               [VStr "#b"; VStr "#c"])))) in
  threw (syncChannels s) = false ∧
  callsOn read (issued s (final (syncChannels s))) = [Join (VStr "#a"); Part (VStr "#c")] ∧
  joinedChannels read (final (syncChannels s)) = Some [VStr "#b"; VStr "#a"] ∧
  asSet [VStr "#b"; VStr "#a"] = asSet [VStr "#a"; VStr "#b"].
Proof.
  intros s. apply (syncChannels_join_then_part s read).
  - apply separateArraysb_true. vm_compute. reflexivity.
  - discriminate.
  - discriminate.
  - discriminate.
  - discriminate.
  - vm_compute. reflexivity.
  - vm_compute. reflexivity.
Defined.

(** C4 as stated fails: on that page the calls on the read client are the
    join of [#a] followed by the part of [#c], not the part followed by the
    join. *)
Lemma syncChannels_not_part_then_join :
  let s := final (settingsChange (MutateChannels [VStr "#a"; VStr "#b"])
             (final (create (initial {| username := "bob"; password := "pw" |}
                               [VStr "#b"; VStr "#c"])))) in
  desiredChannels s = Some [VStr "#a"; VStr "#b"] ∧
  joinedChannels read s = Some [VStr "#b"; VStr "#c"] ∧
  callsOn read (issued s (final (syncChannels s))) ≠ [Part (VStr "#c"); Join (VStr "#a")].
Proof.
  intros s. split; [vm_compute; reflexivity|]. split; [vm_compute; reflexivity|].
  assert (Hc : callsOn read (issued s (final (syncChannels s)))
               = [Join (VStr "#a"); Part (VStr "#c")]) by (vm_compute; reflexivity).
  rewrite Hc. discriminate.
Qed.

(** ** Events on the wired read client *)

(** Evaluates the listeners of an event; what depends on the reason of the
    event is left as a case distinction. *)
Ltac run_event :=
  cbv -[app length lookup list_lookup from_option id arrayAt Nat.add Nat.sub
        insert list_insert delete list_delete elem_of
        value_eq_dec reasonOf badLoginReason outward wired live allLive noneLive].

(** Splits a hypothesis [wired ws s], for a list [ws] of wirings written
    out, into one goal per wiring, with the state taken apart. *)
Ltac wired_cases H :=
  let c := fresh "c" in
  let w := fresh "w" in
  let Hc := fresh "Hc" in
  let Hl := fresh "Hl" in
  let Hw := fresh "Hw" in
  destruct H as (c & w & Hc & Hl & Hw);
  match type of Hc with
  | client_at read (clients ?s) = _ =>
      destruct s as [?h ?st [?r [?cw|] [?cwh|]] ?e ?tr [?ob|] ?chs ?n]
  end;
  destruct c as [?k ?o ?ls ?tc];
  simpl in Hc, Hl; subst;
  unfold allWirings, armedWirings, spentWirings, checkedWirings in Hw;
  simpl app in Hw;
  rewrite ?elem_of_cons, ?elem_of_nil in Hw;
  repeat (destruct Hw as [Hw|Hw]); try contradiction; subst.

Lemma outward_snoc event (l : list (string * list value)) e args :
  length (filter (λ x, x.1 = event) (l ++ [(e, args)]))
  = if decide (e = event) then S (length (filter (λ x, x.1 = event) l))
    else length (filter (λ x, x.1 = event) l).
Proof.
  rewrite filter_app, length_app.
  destruct (decide (e = event)) as [He|He].
  - rewrite filter_cons_True by done. simpl. lia.
  - rewrite filter_cons_False by done. simpl. lia.
Qed.

(** Counts the events emitted on [ee] in a state written out. *)
Ltac count_outward :=
  unfold outward; cbn [emitted ee]; rewrite ?outward_snoc;
  repeat first [rewrite decide_True by done | rewrite decide_False by done];
  try reflexivity.

Ltac wired_with w :=
  eexists _, w; split; [reflexivity|]; split; [reflexivity|];
  unfold allWirings, armedWirings, spentWirings, checkedWirings; simpl app;
  rewrite ?elem_of_cons; auto 10.

(** Proves [wired ws s] for a state written out, by trying each wiring. *)
Ltac wired_solve :=
  first [ wired_with [suppressor] | wired_with [suppressor; badLoginCheck]
        | wired_with [badLoginCheck; suppressor] | wired_with [rearm]
        | wired_with [badLoginCheck; rearm] ].

(** Runs an event on a wired state and distinguishes the two kinds of
    reason. *)
Ltac event_cases H :=
  wired_cases H; run_event;
  try destruct (value_eq_dec (reasonOf _) badLoginReason).

Lemma disconnected_on_armed s args :
  wired armedWirings s →
  outward "disconnected" (final (emit read "disconnected" args s))
    = S (outward "disconnected" s) ∧
  (client_at read (clients (final (emit read "disconnected" args s))) = None ∨
   wired spentWirings (final (emit read "disconnected" args s))).
Proof.
  intros H. event_cases H; (split; [count_outward|]);
    first [by left | right; wired_solve].
Qed.

Lemma disconnected_on_spent s args :
  client_at read (clients s) = None ∨ wired spentWirings s →
  outward "disconnected" (final (emit read "disconnected" args s))
    = outward "disconnected" s ∧
  (client_at read (clients (final (emit read "disconnected" args s))) = None ∨
   wired spentWirings (final (emit read "disconnected" args s))).
Proof.
  intros [H|H].
  - unfold emit, getClient. unfold mbind, M_bind. rewrite H. simpl. auto.
  - event_cases H; (split; [count_outward|]);
      first [by left | right; wired_solve].
Qed.

Lemma connected_on_spent s args :
  wired spentWirings s →
  outward "disconnected" (final (emit read "connected" args s))
    = outward "disconnected" s ∧
  wired armedWirings (final (emit read "connected" args s)).
Proof.
  intros H. event_cases H; (split; [count_outward|]); wired_solve.
Qed.

Lemma storm_on_spent payloads : ∀ s,
  client_at read (clients s) = None ∨ wired spentWirings s →
  outward "disconnected" (notifications read "disconnected" payloads s)
    = outward "disconnected" s ∧
  (client_at read (clients (notifications read "disconnected" payloads s)) = None ∨
   wired spentWirings (notifications read "disconnected" payloads s)).
Proof.
  induction payloads as [|args payloads IH]; intros s Hs; [done|].
  destruct (disconnected_on_spent s args Hs) as [Hn Hq].
  destruct (IH _ Hq) as [Hn' Hq'].
  unfold notifications in *. simpl. split; [congruence|done].
Qed.

(** C2.  The read client is wired as [create] leaves it, with the
    suppressor armed, with or without the bad-login check.  Of any number
    (at least one) of "disconnected" events of the read client in a row,
    whatever their payloads, exactly one is emitted on [ee].  If the read
    client is still in the table after them, a "connected" event emits no
    "disconnected", and the "disconnected" event after it is emitted on
    [ee], exactly once. *)
Theorem disconnect_storm_one_event
    (s : State) (payloads : list (list value)) (cargs dargs : list value) :
  wired armedWirings s → payloads ≠ [] →
  let s1 := notifications read "disconnected" payloads s in
  let s2 := final (emit read "connected" cargs s1) in
  let s3 := final (emit read "disconnected" dargs s2) in
  outward "disconnected" s1 = S (outward "disconnected" s) ∧
  (live read s1 →
   outward "disconnected" s2 = outward "disconnected" s1 ∧
   outward "disconnected" s3 = S (outward "disconnected" s1)).
Proof.
  intros Hs Hne. destruct payloads as [|args payloads]; [done|].
  intros s1 s2 s3.
  destruct (disconnected_on_armed s args Hs) as [Hn Hq].
  destruct (storm_on_spent payloads _ Hq) as [Hn' Hq'].
  change (notifications read "disconnected" payloads
            (final (emit read "disconnected" args s))) with s1 in Hn', Hq'.
  split; [congruence|].
  intros [c Hc]. destruct Hq' as [Hnone|Hspent]; [congruence|].
  destruct (connected_on_spent s1 cargs Hspent) as [Hn2 Harmed].
  fold s2 in Hn2, Harmed.
  destruct (disconnected_on_armed s2 dargs Harmed) as [Hn3 _].
  fold s3 in Hn3. split; congruence.
Qed.

(** Witness of C2: three "disconnected" in a row after the setup of a page
    with valid credentials, then a "connected" and one more
    "disconnected". *)
Lemma disconnect_storm_one_event_witness :
  let s := final (setup (initial {| username := "bob"; password := "pw" |} [VStr "#a"])) in
  let s1 := notifications read "disconnected"
              [[VStr "Connection closed."]; [VStr "Unable to connect."];
               [VStr "Unable to connect."]] s in
  let s2 := final (emit read "connected" [VStr "irc.example"; VOther 443] s1) in
  let s3 := final (emit read "disconnected" [VStr "Connection closed."] s2) in
  outward "disconnected" s1 = S (outward "disconnected" s) ∧
  outward "disconnected" s2 = outward "disconnected" s1 ∧
  outward "disconnected" s3 = S (outward "disconnected" s1).
Proof.
  intros s s1 s2 s3.
  assert (Hs : wired armedWirings s).
  { eexists _, [suppressor; badLoginCheck].
    split; [vm_compute; reflexivity|]. split; [reflexivity|].
    unfold armedWirings. rewrite !elem_of_cons. auto. }
  destruct (disconnect_storm_one_event s
              [[VStr "Connection closed."]; [VStr "Unable to connect."];
               [VStr "Unable to connect."]]
              [VStr "irc.example"; VOther 443] [VStr "Connection closed."] Hs
              ltac:(discriminate)) as [H1 H2].
  split; [exact H1|]. apply H2. vm_compute. eauto.
Defined.

(** ** Bad login *)



(** ** Connection *)

(** What the listeners of "connected" do by themselves.  On a read client
    wired as [create] leaves it, in any of the states its listeners go
    through, a "connected" event sets [ready] to true and assigns nothing to
    [badLogin]; it is rebroadcast once on [ee]. *)
Lemma connected_on_wired (s : State) (args : list value) :
  wired allWirings s →
  let s' := final (emit read "connected" args s) in
  ready (ee s') = true ∧
  badLogin (ee s') = badLogin (ee s) ∧
  outward "connected" s' = S (outward "connected" s).
Proof.
  intros H. event_cases H; repeat split; try done; count_outward.
Qed.

(** ** The joined arrays are the provider's own *)

Lemma settingsChange_frame c t l :
  l < length (heap t) → l ≠ channels (settings t) →
  let t' := final (settingsChange c t) in
  l < length (heap t') ∧ l ≠ channels (settings t') ∧
  clients t' = clients t ∧ heap t' !! l = heap t !! l.
Proof.
  intros Hl Hne. destruct c as [v|v|i]; simpl.
  - rewrite length_insert. repeat split; try done. by apply list_lookup_insert_ne.
  - rewrite length_app. simpl. repeat split; try lia. by apply lookup_app_l.
  - done.
Qed.

Lemma settingsChanges_frame cs : ∀ t l,
  l < length (heap t) → l ≠ channels (settings t) →
  clients (settingsChanges cs t) = clients t ∧
  heap (settingsChanges cs t) !! l = heap t !! l.
Proof.
  induction cs as [|c cs IH]; intros t l Hl Hne; [done|].
  destruct (settingsChange_frame c t l Hl Hne) as (Hl' & Hne' & Hc & Hh).
  destruct (IH _ l Hl' Hne') as [Hc' Hh'].
  unfold settingsChanges in *. simpl. split; congruence.
Qed.

Lemma arrayAt_app h k l : l < length h → arrayAt (h ++ k) l = arrayAt h l.
Proof. intros H. unfold arrayAt. by rewrite lookup_app_l. Qed.

Lemma created_heap s :
  channels (settings s) < length (heap s) →
  heap (created s) =
    heap s ++ (let D := arrayAt (heap s) (channels (settings s)) in [D; D; D; D; D; []; []]).
Proof.
  intros H. destruct s as [h [i ch] cs e tr ob chs n]. simpl in *.
  rewrite !arrayAt_app by (rewrite ?length_app; simpl; lia).
  by rewrite <- !app_assoc.
Qed.

Lemma lookup_offset {A} (h k : list A) (l i : nat) :
  l = length h + i → (h ++ k) !! l = k !! i.
Proof. intros ->. rewrite lookup_app_r by lia. f_equal. lia. Qed.

(** C9.  [settings.channels] refers to an array of the store.  After
    [create()] the joined array of each client is an array of its own, not
    the array of [settings.channels] and not the channel array the client
    was built with; it holds the channels the client was built with, which
    for the read and write clients are those of [settings.channels] at that
    moment and for the whisper client none.  Whatever is then done to the
    settings from outside (the channel array changed in place or replaced,
    the identity changed, any number of times), the clients and their joined
    arrays are as [create()] left them. *)
Theorem tracked_channels_independent
    (s : State) (key : Role) (changes : list SettingsChange) :
  channels (settings s) < length (heap s) →
  let s' := final (create s) in
  let s'' := settingsChanges changes s' in
  ∃ c, client_at key (clients s') = Some c ∧
       heap s' !! tcCurrentChannels c =
         Some (if decide (key = whisper) then []
               else arrayAt (heap s) (channels (settings s))) ∧
       heap s' !! o_channels (c_opts c) = heap s' !! tcCurrentChannels c ∧
       tcCurrentChannels c ≠ channels (settings s') ∧
       tcCurrentChannels c ≠ o_channels (c_opts c) ∧
       client_at key (clients s'') = Some c ∧
       heap s'' !! tcCurrentChannels c = heap s' !! tcCurrentChannels c.
Proof.
  intros Hch s' s''. subst s' s''. rewrite create_spec. simpl final.
  pose proof (created_heap s Hch) as Hheap.
  assert (Hlen : length (heap (created s)) = length (heap s) + 7)
    by (rewrite Hheap, length_app; reflexivity).
  assert (Hst : channels (settings (created s)) = channels (settings s))
    by (by destruct s).
  assert (Hkey : ∃ c, client_at key (clients (created s)) = Some c ∧
            tcCurrentChannels c = length (heap s) + match key with read => 1 | write => 3 | whisper => 6 end ∧
            o_channels (c_opts c) = length (heap s) + match key with read => 0 | write => 2 | whisper => 5 end).
  { destruct s as [h st cs e tr ob chs n], key; eexists; (split; [reflexivity|]);
      simpl; rewrite ?length_app; simpl; lia. }
  destruct Hkey as (c & Hc & Htc & Ho). unfold loc in *.
  destruct (settingsChanges_frame changes (created s) (tcCurrentChannels c))
    as [Hcl Hh]; [destruct key; lia|destruct key; lia|].
  exists c. rewrite Hcl, Hh, Hst, Hheap.
  rewrite (lookup_offset _ _ _ _ Htc), (lookup_offset _ _ _ _ Ho).
  destruct key; repeat split; try done; lia.
Qed.

(** Witness of C9: a page with the channels [#a], [#b]; after [create] the
    owner of the settings empties the array in place, then puts another
    array in its place. *)
Lemma tracked_channels_independent_witness :
  let s := initial {| username := "bob"; password := "pw" |} [VStr "#a"; VStr "#b"] in
  let s' := final (create s) in
  let s'' := settingsChanges [MutateChannels []; ReplaceChannels [VStr "#z"]] s' in
  ∃ c, client_at read (clients s') = Some c ∧
       heap s' !! tcCurrentChannels c = Some [VStr "#a"; VStr "#b"] ∧
       heap s' !! o_channels (c_opts c) = heap s' !! tcCurrentChannels c ∧
       tcCurrentChannels c ≠ channels (settings s') ∧
       tcCurrentChannels c ≠ o_channels (c_opts c) ∧
       client_at read (clients s'') = Some c ∧
       heap s'' !! tcCurrentChannels c = heap s' !! tcCurrentChannels c.
Proof.
  intros s.
  exact (tracked_channels_independent s read
           [MutateChannels []; ReplaceChannels [VStr "#z"]] ltac:(simpl; lia)).
Defined.

(** * Further properties *)

(** ** Rebroadcast *)

(** [wired_cases] without the case distinctions that only teardown needs. *)
Ltac wired_read H :=
  let c := fresh "c" in
  let w := fresh "w" in
  let Hc := fresh "Hc" in
  let Hl := fresh "Hl" in
  let Hw := fresh "Hw" in
  destruct H as (c & w & Hc & Hl & Hw);
  match type of Hc with
  | client_at read (clients ?s) = _ =>
      destruct s as [?h ?st [?r ?cw ?cwh] ?e ?tr ?ob ?chs ?n]
  end;
  destruct c as [?k ?o ?ls ?tc];
  simpl in Hc, Hl; subst;
  unfold allWirings, armedWirings, spentWirings, checkedWirings in Hw;
  simpl app in Hw;
  rewrite ?elem_of_cons, ?elem_of_nil in Hw;
  repeat (destruct Hw as [Hw|Hw]); try contradiction; subst.

(** X1. An event of the read client whose name is in the list [create]
    gives to [forwardEvents], other than "connected", is emitted on [ee]
    once, under the same name and with the same arguments, and changes
    nothing else. *)
Theorem read_events_relayed (s : State) (event : string) (args : list value) :
  wired allWirings s → event ∈ readEvents → event ≠ "connected" →
  emit read event args s = Ok () (relayed event args s).
Proof.
  intros H Hev Hne. unfold readEvents in Hev.
  rewrite ?elem_of_cons, ?elem_of_nil in Hev.
  repeat (destruct Hev as [Hev|Hev]); try contradiction; subst;
    try congruence; wired_read H; reflexivity.
Qed.

(** Witness of X1: a chat message on the read client of a new page. *)
Lemma read_events_relayed_witness :
  let s := final (create (initial {| username := "bob"; password := "pw" |} [VStr "#a"])) in
  let args := [VStr "#a"; VOther 7; VStr "hello"; VBool false] in
  emit read "chat" args s = Ok () (relayed "chat" args s).
Proof.
  intros s args. apply (read_events_relayed s "chat" args).
  - eexists _, [suppressor].
    split; [vm_compute; reflexivity|]. split; [reflexivity|].
    unfold allWirings, armedWirings. simpl app. rewrite !elem_of_cons. auto.
  - unfold readEvents. rewrite !elem_of_cons. auto.
  - discriminate.
Defined.

Lemma wired_event_names w :
  w ∈ allWirings →
  Forall (λ l, l_event l ∈ "disconnected" :: readEvents) (baseListeners ++ w).
Proof.
  intros Hw. unfold allWirings, armedWirings, spentWirings in Hw. simpl app in Hw.
  rewrite ?elem_of_cons, ?elem_of_nil in Hw.
  repeat (destruct Hw as [Hw|Hw]); try contradiction; subst w;
    apply (bool_decide_unpack _); vm_compute; reflexivity.
Qed.

Lemma listenersFor_unlisted event w :
  event ∉ readEvents → event ≠ "disconnected" → w ∈ allWirings →
  listenersFor event (baseListeners ++ w) = [].
Proof.
  intros Hev Hd Hw. unfold listenersFor. apply filter_none.
  eapply Forall_impl; [by apply wired_event_names|].
  intros l Hl Heq. simpl in Hl, Heq. subst event.
  apply elem_of_cons in Hl as [Hl|Hl]; contradiction.
Qed.

(** X2. An event of the read client that is not in that list and is not
    "disconnected" reaches no listener: nothing is emitted on [ee] and the
    state is the same. *)
Theorem unlisted_events_dropped (s : State) (event : string) (args : list value) :
  wired allWirings s → event ∉ readEvents → event ≠ "disconnected" →
  emit read event args s = Ok () s.
Proof.
  intros (c & w & Hc & Hl & Hw) Hev Hd.
  unfold emit. unfold getClient, mbind, M_bind. rewrite Hc, Hl.
  by rewrite listenersFor_unlisted.
Qed.

(** Witness of X2: tmi's "notice" event, which is not in the list. *)
Lemma unlisted_events_dropped_witness :
  let s := final (create (initial {| username := "bob"; password := "pw" |} [VStr "#a"])) in
  emit read "notice" [VStr "#a"; VStr "msg_banned"] s = Ok () s.
Proof.
  intros s. apply (unlisted_events_dropped s "notice").
  - eexists _, [suppressor].
    split; [vm_compute; reflexivity|]. split; [reflexivity|].
    unfold allWirings, armedWirings. simpl app. rewrite !elem_of_cons. auto.
  - apply (bool_decide_unpack _). vm_compute. reflexivity.
  - discriminate.
Defined.

(** X3. On the clients as [create] wires them, the whisper client relays
    its "whisper" event to [ee], once and unchanged, and nothing else; no
    event of the write client reaches anything. *)
Theorem side_clients_relay (s : State) (event : string) (args : list value) :
  sideWired s →
  emit whisper "whisper" args s = Ok () (relayed "whisper" args s) ∧
  (event ≠ "whisper" → emit whisper event args s = Ok () s) ∧
  emit write event args s = Ok () s.
Proof.
  intros (cw & cwh & Hw & Hlw & Hwh & Hlwh).
  unfold emit, getClient, mbind, M_bind. rewrite Hw, Hwh, Hlw, Hlwh.
  split; [reflexivity|]. split; [|reflexivity].
  intros Hne. unfold listenersFor.
  by rewrite filter_cons_False by (simpl; congruence).
Qed.

Lemma created_sideWired s : sideWired (final (create s)).
Proof.
  rewrite create_spec. destruct s as [h st cs e tr ob chs n].
  eexists _, _. repeat split; reflexivity.
Qed.

(** Witness of X3: the clients of a new page. *)
Lemma side_clients_relay_witness :
  let s := final (create (initial {| username := "bob"; password := "pw" |} [VStr "#a"])) in
  let args := [VStr "alice"; VStr "psst"] in
  emit whisper "whisper" args s = Ok () (relayed "whisper" args s) ∧
  ("chat" ≠ "whisper" → emit whisper "chat" args s = Ok () s) ∧
  emit write "chat" args s = Ok () s.
Proof.
  intros s args.
  exact (side_clients_relay s "chat" args
           (created_sideWired (initial {| username := "bob"; password := "pw" |} [VStr "#a"]))).
Defined.

(** ** Page load, credentials, change records *)

Lemma noneLive_clients s : noneLive s → clients s = noClients.
Proof.
  intros H. pose proof (H read). pose proof (H write). pose proof (H whisper).
  destruct s as [h st [r w wh] e tr ob chs n]. simpl in *. by subst.
Qed.

Lemma allLive_clients s :
  allLive s → ∃ cr cw cwh,
    clients s = {| cl_read := Some cr; cl_write := Some cw; cl_whisper := Some cwh |}.
Proof.
  intros H. destruct (H read) as [cr Hr], (H write) as [cw Hw], (H whisper) as [cwh Hwh].
  destruct s as [h st [r w wh] e tr ob chs n]. simpl in *. subst. eauto.
Qed.

Lemma allOrNone_create_live s : allLive (final (create s)).
Proof.
  rewrite create_spec. destruct s as [h st [r w wh] e tr ob chs n]. intros []; run; eauto.
Qed.

Lemma setup_fresh s :
  noneLive s → observer s = None →
  setup s = if credentialsValid s
            then Ok () (with_observer (Some CbDestroy)
                          (addListeners read [badLoginCheck] (created s)))
            else Ok () (with_observer (Some CbDestroy) s).
Proof.
  intros Hn Ho. apply noneLive_clients in Hn.
  destruct s as [h st cs e tr ob chs n]. simpl in Hn, Ho. subst.
  match goal with |- context [setup ?s] => set (s0 := s) end.
  unfold setup, get. unfold mbind at 1, M_bind at 1.
  destruct (credentialsValid s0).
  - rewrite (bind_ok _ _ _ _ _ (create_spec _)). subst s0. run. reflexivity.
  - reflexivity.
Qed.

Lemma setup_fresh_wired s :
  wired [[suppressor; badLoginCheck]]
    (with_observer (Some CbDestroy) (addListeners read [badLoginCheck] (created s))) ∧
  sideWired
    (with_observer (Some CbDestroy) (addListeners read [badLoginCheck] (created s))).
Proof.
  destruct s as [h st cs e tr ob chs n]. split.
  - eexists _, _. repeat split; try reflexivity. apply list_elem_of_singleton. reflexivity.
  - eexists _, _. repeat split; reflexivity.
Qed.

(** X4. The body of the factory on a freshly loaded page.  With a user name
    and a password it builds the three clients and attaches the bad-login
    check to the read client, once, after the listeners of [create]; [ready]
    is not touched and [badLogin] is false.  With an empty user name or
    password it builds nothing and calls nothing: only the observer of the
    table is registered. *)
Theorem setup_on_load (s : State) :
  noneLive s → observer s = None →
  (credentialsValid s = true →
     threw (setup s) = false ∧
     allLive (final (setup s)) ∧
     wired [[suppressor; badLoginCheck]] (final (setup s)) ∧
     sideWired (final (setup s)) ∧
     issued s (final (setup s)) = issued s (final (create s)) ∧
     ready (ee (final (setup s))) = ready (ee s) ∧
     badLogin (ee (final (setup s))) = VBool false ∧
     changes (final (setup s)) = changes s ∧
     observer (final (setup s)) = Some CbDestroy) ∧
  (credentialsValid s = false →
     setup s = Ok () (with_observer (Some CbDestroy) s)).
Proof.
  intros Hn Ho. pose proof (setup_fresh s Hn Ho) as Hsetup.
  apply noneLive_clients in Hn.
  split; intros Hv; rewrite Hv in Hsetup; rewrite Hsetup; [|reflexivity].
  rewrite create_spec. simpl final.
  destruct (setup_fresh_wired s) as [Hw Hside].
  split; [reflexivity|]. split.
  { destruct s as [h st cs e tr ob chs n]. intros []; run; eauto. }
  split; [exact Hw|]. split; [exact Hside|].
  destruct s as [h st cs e tr ob chs n]. simpl in Hn, Ho. subst.
  repeat split; try reflexivity. simpl. by rewrite !app_nil_r.
Qed.

(** Witness of X4: a page loaded with credentials and one loaded without a
    user name. *)
Lemma setup_on_load_witness :
  let s := initial {| username := "bob"; password := "pw" |} [VStr "#a"] in
  let s0 := initial {| username := ""; password := "x" |} [VStr "#a"] in
  wired [[suppressor; badLoginCheck]] (final (setup s)) ∧
  setup s0 = Ok () (with_observer (Some CbDestroy) s0).
Proof.
  intros s s0.
  destruct (setup_on_load s ltac:(by intros []) eq_refl) as [Hvalid _].
  destruct (setup_on_load s0 ltac:(by intros []) eq_refl) as [_ Hinvalid].
  destruct (Hvalid eq_refl) as (_ & _ & Hw & _).
  exact (conj Hw (Hinvalid eq_refl)).
Defined.

(** [credentialsValid()] holds exactly when neither the user name nor
    the password of the settings is the empty string; the channel list
    plays no part. *)
Theorem credentialsValid_nonempty (s : State) :
  credentialsValid s = true ↔
  username (identity (settings s)) ≠ "" ∧ password (identity (settings s)) ≠ "".
Proof.
  unfold credentialsValid.
  destruct (username (identity (settings s))) as [|a u],
           (password (identity (settings s))) as [|b p]; simpl;
    intuition congruence.
Qed.

(** X5. The two watchers of the validity of the credentials, run one after
    the other on the same pair of values: when the validity has not changed
    they do nothing, when it has become true they run [create()], when it
    has become false they run [destroy()], which empties the table and
    leaves both flags of [ee], [ready] included, as they were. *)
Theorem credential_watchers (s : State) (newv oldv : bool) :
  (onValidCredentials CbCreate newv oldv ;; onInvalidCredentials CbDestroy newv oldv) s
  = (if decide (oldv = newv) then Ok () s
     else if newv then create s else destroy s) ∧
  allLive (final (create s)) ∧
  noneLive (final (destroy s)) ∧
  ee (final (destroy s)) = ee s.
Proof.
  split; [|split; [|split]].
  - unfold onValidCredentials, onInvalidCredentials, onCredentialsValidChange.
    destruct newv, oldv; simpl; try reflexivity.
    unfold mbind, M_bind. by destruct (create s) as [[] ?|].
  - by apply allOrNone_create_live.
  - rewrite destroy_spec. by intros [].
  - by rewrite destroy_spec.
Qed.

(** X6. After [onBadLogin] has registered its observer, a [create()] on an
    empty table queues one change record per key, and their delivery
    attaches the bad-login check to the new read client once: the page is
    wired as after a load with valid credentials. *)
Theorem create_then_delivery (s : State) (cb : Callback) :
  noneLive s → observer s = Some cb → changes s = [] →
  changes (final (create s)) = [read; write; whisper] ∧
  deliverChanges (final (create s))
    = Ok () (with_changes [] (addListeners read [listener "disconnected" (HBadLoginCheck cb)]
                                (final (create s)))) ∧
  (cb = CbDestroy → steady (final (deliverChanges (final (create s))))).
Proof.
  intros Hn Ho Hch. apply noneLive_clients in Hn.
  destruct s as [h st cs e tr ob chs n]. simpl in Hn, Ho, Hch. subst.
  match goal with |- context [create ?s] => set (s0 := s) end.
  assert (Hc : final (create s0) = created s0) by (by rewrite create_spec).
  rewrite !Hc.
  assert (Hd : deliverChanges (created s0)
               = Ok () (with_changes []
                          (addListeners read [listener "disconnected" (HBadLoginCheck cb)]
                             (created s0))))
    by (subst s0; run; reflexivity).
  split; [reflexivity|]. split; [exact Hd|].
  intros Hcb. rewrite Hd. simpl final. rewrite Hcb. right. split.
  - eexists _, [suppressor; badLoginCheck]. subst s0.
    split; [run; reflexivity|]. split; [reflexivity|].
    unfold checkedWirings. rewrite !elem_of_cons. auto.
  - eexists _, _. subst s0. repeat split; run; reflexivity.
Qed.

(** Witness of X6: a page loaded without credentials, which has registered
    the observer and built nothing. *)
Lemma create_then_delivery_witness :
  let s := final (setup (initial {| username := ""; password := "" |} [VStr "#a"])) in
  steady (final (deliverChanges (final (create s)))).
Proof.
  intros s.
  destruct (create_then_delivery s CbDestroy ltac:(by intros []) eq_refl eq_refl)
    as (_ & _ & H).
  exact (H eq_refl).
Defined.

(** X7. The same observer is called when [destroy()] has emptied the table:
    it calls [attachBadLoginCheck], which reads a property of the [null]
    under [read] and throws a [TypeError].  The records are consumed and
    nothing else changes. *)
Theorem delivery_after_destroy (s : State) (cb : Callback) :
  live read s → observer s = Some cb → changes s = [] →
  deliverChanges (final (destroy s))
    = Err TypeError (with_changes [] (final (destroy s))).
Proof.
  intros [c Hc] Ho Hch. rewrite destroy_spec. simpl final.
  destruct s as [h st [r w wh] e tr ob chs n]. simpl in Hc, Ho, Hch. subst.
  destruct w, wh; reflexivity.
Qed.

(** Witness of X7: a page loaded with credentials, torn down. *)
Lemma delivery_after_destroy_witness :
  let s := final (setup (initial {| username := "bob"; password := "pw" |} [VStr "#a"])) in
  deliverChanges (final (destroy s)) = Err TypeError (with_changes [] (final (destroy s))).
Proof.
  intros s.
  apply (delivery_after_destroy s CbDestroy); [vm_compute; eauto|reflexivity|reflexivity].
Defined.

(** ** Reconciliation, further *)

Lemma joinsOf_none D : ∀ J, (∀ x, x ∈ D → x ∈ J) → joinsOf D J = [].
Proof.
  induction D as [|channel D IH]; intros J H; [done|].
  simpl. unfold notIndexOf.
  rewrite bool_decide_eq_false_2 by (intros Hn; apply Hn, H; by left).
  apply IH. intros x Hx. apply H. by right.
Qed.

Lemma sessionCalls_settled D J :
  sessionCalls D (keptOf D J ++ joinsOf D J) = [] ∧
  keptOf D (keptOf D J ++ joinsOf D J) ++ joinsOf D (keptOf D J ++ joinsOf D J)
  = keptOf D J ++ joinsOf D J.
Proof.
  assert (Hall : Forall (λ ch, ch ∈ D) (keptOf D J ++ joinsOf D J)).
  { apply Forall_app. split; [|apply joinsOf_wanted].
    apply Forall_forall. intros x Hx. unfold keptOf in Hx.
    by apply list_elem_of_filter in Hx as [? _]. }
  assert (Hj : joinsOf D (keptOf D J ++ joinsOf D J) = []).
  { apply joinsOf_none. intros x Hx.
    rewrite elem_of_app, joinsOf_elem. unfold keptOf. rewrite list_elem_of_filter.
    destruct (decide (x ∈ J)); tauto. }
  unfold sessionCalls, partsOf. rewrite Hj, app_nil_r.
  rewrite (filter_none (λ ch, ch ∉ D)) by (eapply Forall_impl; [exact Hall|by intros x Hx ?]).
  split; [done|]. unfold keptOf at 1. by apply filter_all.
Qed.

(** X8. Reconciliation is idempotent: right after a [syncChannels()], a
    second one returns without a single call and leaves the state, the
    joined arrays included, as it is.  A joined array may hold a channel
    more than once. *)
Theorem syncChannels_idempotent (s : State) :
  separateArrays s →
  syncChannels (final (syncChannels s)) = Ok () (final (syncChannels s)).
Proof.
  intros (cr & cw & Hr & Hw & [D HD] & [Jr HJr] & [Jw HJw] & Hner & Hnew & Hne).
  rewrite (syncChannels_spec s cr cw D Jr Jw) by done. simpl final.
  set (s1 := synced read _ _ _ s). set (s2 := synced write _ _ _ s1).
  assert (HD2 : heap s2 !! channels (settings s2) = Some D).
  { subst s2 s1. by rewrite !synced_lookup_ne. }
  assert (HJr2 : heap s2 !! tcCurrentChannels cr = Some (keptOf D Jr ++ joinsOf D Jr)).
  { subst s2. rewrite synced_lookup_ne by done. subst s1. apply synced_lookup. eauto. }
  assert (HJw2 : heap s2 !! tcCurrentChannels cw = Some (keptOf D Jw ++ joinsOf D Jw)).
  { subst s2. apply synced_lookup. subst s1. rewrite synced_lookup_ne by done. eauto. }
  rewrite (syncChannels_spec s2 cr cw D _ _ Hr Hw HD2 HJr2 HJw2) by done.
  destruct (sessionCalls_settled D Jr) as [-> ->].
  destruct (sessionCalls_settled D Jw) as [-> ->].
  rewrite (synced_id read _ _ s2) by done.
  by rewrite synced_id.
Qed.

(** Witness of X8: a page created with a channel named twice, whose channel
    list is then changed in place. *)
Lemma syncChannels_idempotent_witness :
  let s := final (settingsChange (MutateChannels [VStr "#b"; VStr "#c"])
             (final (create (initial {| username := "bob"; password := "pw" |}
                               [VStr "#a"; VStr "#a"; VStr "#b"])))) in
  syncChannels (final (syncChannels s)) = Ok () (final (syncChannels s)).
Proof.
  intros s. apply (syncChannels_idempotent s).
  apply separateArraysb_true. vm_compute. reflexivity.
Defined.

(** ** What reconciliation leaves alone *)

Lemma syncFrame_refl s : syncFrame s s.
Proof.
  repeat split; try done. exists []. by rewrite app_nil_r.
Qed.

Lemma syncFrame_modify_heap s0 (f : list (list value) → list (list value)) :
  (∀ h, length (f h) = length h) →
  preserves (syncFrame s0) (modify (λ s, with_heap (f (heap s)) s)).
Proof.
  intros Hf s (Hc & He & Hs & Ho & Hch & Hd & Hl & calls & Ht & Hall).
  repeat split; try done.
  - simpl. by rewrite Hf.
  - by exists calls.
Qed.

Lemma syncFrame_call s0 key c :
  key ≠ whisper → isJoinOrPart c = true → preserves (syncFrame s0) (call key c).
Proof.
  intros Hk Hcall s (Hc & He & Hs & Ho & Hch & Hd & Hl & calls & Ht & Hall).
  unfold call, theClient, getClient, mbind, M_bind.
  destruct (client_at key (clients s)); simpl.
  - repeat split; try done. exists (calls ++ [(key, c)]). split.
    + by rewrite Ht, app_assoc.
    + apply Forall_app. split; [done|]. by constructor.
  - repeat split; try done. by exists calls.
Qed.

Lemma syncFrame_joinChannels s0 key :
  key ≠ whisper → preserves (syncFrame s0) (joinChannels key).
Proof.
  intros Hk. unfold joinChannels, joinChannel, skip. preserves_steps.
  - by apply syncFrame_call.
  - apply (syncFrame_modify_heap s0 (λ h, <[_ := _]> h)). intros h. apply length_insert.
Qed.

Lemma syncFrame_leaveLoop s0 key n :
  key ≠ whisper → preserves (syncFrame s0) (leaveLoop n key).
Proof.
  intros Hk. induction n as [|i IH]; simpl; unfold skip; preserves_steps; try done.
  - by apply syncFrame_call.
  - apply (syncFrame_modify_heap s0 (λ h, <[_ := _]> h)). intros h. apply length_insert.
Qed.

Lemma syncChannels_syncFrame s0 : preserves (syncFrame s0) syncChannels.
Proof.
  unfold syncChannels. cbn [forEach]. unfold leaveChannels, skip.
  preserves_steps; try (by apply syncFrame_joinChannels);
    by apply syncFrame_leaveLoop.
Qed.

Lemma syncChannels_clients s : clients (final (syncChannels s)) = clients s.
Proof. by destruct (syncChannels_syncFrame s s (syncFrame_refl s)) as (Hc & _). Qed.

(** X9. Whatever the state, and whether it returns or throws,
    [syncChannels()] makes no call but joins and parts, makes none on the
    whisper client, and changes nothing but the contents of arrays: the
    table of clients with their listeners, the flags and events of [ee] and
    the settings are the same, and no array is created. *)
Theorem syncChannels_frame (s : State) :
  syncFrame s (final (syncChannels s)) ∧
  callsOn whisper (issued s (final (syncChannels s))) = [].
Proof.
  assert (H : syncFrame s (final (syncChannels s))).
  { exact (syncChannels_syncFrame s s (syncFrame_refl s)). }
  split; [exact H|].
  destruct H as (_ & _ & _ & _ & _ & _ & _ & calls & Ht & Hall).
  rewrite (issued_app _ _ _ Ht). clear Ht.
  unfold callsOn. induction Hall as [|[k c] calls [Hk _] _ IH]; [done|].
  csimpl. rewrite decide_False by done. exact IH.
Qed.

(** ** Invariants of the life cycle *)

Lemma lifecycle_app tr tr' : lifecycle (tr ++ tr') = lifecycle tr ++ lifecycle tr'.
Proof. apply filter_app. Qed.

Lemma lifecycle_other key c tr :
  isNew c = false → isDisconnect c = false → lifecycle (tr ++ [(key, c)]) = lifecycle tr.
Proof.
  intros Hn Hd. rewrite lifecycle_app. unfold lifecycle at 2.
  rewrite filter_cons_False by (simpl; rewrite Hn, Hd; intros [?|?]; discriminate).
  by rewrite filter_nil, app_nil_r.
Qed.

Section Lifecycle.
Context (P : State → Prop).
Hypothesis P_ext : ∀ s s',
  (∀ k, is_Some (client_at k (clients s')) ↔ is_Some (client_at k (clients s))) →
  lifecycle (trace s') = lifecycle (trace s) → P s → P s'.
Hypothesis P_destroy : preserves P destroy.
Hypothesis P_create : preserves P create.

Lemma life_modify (f : State → State) :
  (∀ s, clients (f s) = clients s) → (∀ s, trace (f s) = trace s) →
  preserves P (modify f).
Proof.
  intros Hc Ht. apply preserves_modify. intros s. apply P_ext.
  - intros k. by rewrite Hc.
  - by rewrite Ht.
Qed.

Lemma life_call key c :
  isNew c = false → isDisconnect c = false → preserves P (call key c).
Proof.
  intros Hn Hd s Hs. unfold call, theClient, getClient, mbind, M_bind.
  destruct (client_at key (clients s)); simpl; [|done].
  revert Hs. apply P_ext; [done|]. simpl. by apply lifecycle_other.
Qed.

Lemma life_allocArray v : preserves P (allocArray v).
Proof. intros s. by apply P_ext. Qed.

Lemma life_setListeners key ls : preserves P (setListeners key ls).
Proof.
  intros s. unfold setListeners, theClient, getClient, mbind, M_bind, mret, M_ret, throw, modify.
  destruct (client_at key (clients s)) as [c|] eqn:Hc; simpl; [|done].
  apply P_ext; [|done]. intros k. simpl. apply liveness_put_some. by rewrite Hc.
Qed.

(** Splits a computation into its steps and closes the steps that change
    neither the table nor the constructions and disconnections. *)
Ltac life :=
  preserves_steps;
  try first
    [ assumption
    | apply life_setListeners
    | apply life_allocArray
    | apply life_call; reflexivity
    | apply life_modify; done ].

Lemma life_addListener key event fn : preserves P (addListener key event fn).
Proof. unfold addListener. life. Qed.

Lemma life_once key event fn : preserves P (once key event fn).
Proof. unfold once. life. Qed.

Lemma life_removeListener key l : preserves P (removeListener key l).
Proof. unfold removeListener, skip. life. Qed.

Lemma life_leaveLoop n key : preserves P (leaveLoop n key).
Proof.
  induction n as [|i IH]; simpl; unfold skip, writeArray; life.
Qed.

Lemma life_syncChannels : preserves P syncChannels.
Proof.
  unfold syncChannels, joinChannels, joinChannel, leaveChannels, skip, writeArray. life.
  apply life_leaveLoop.
Qed.

Lemma life_callback cb : preserves P (run_callback cb).
Proof. destruct cb; simpl; [done|done|apply life_syncChannels]. Qed.

Lemma life_handler h args : preserves P (run_handler h args).
Proof.
  destruct h; simpl;
    unfold skip, ee_emit, setBadLogin, setPassword, setReady, onlyEmitDisconnectedOnce;
    life; try apply life_once; apply life_callback.
Qed.

Lemma life_callListeners key ls args : preserves P (callListeners key ls args).
Proof.
  induction ls as [|l ls IH]; simpl; unfold skip; life;
    try apply life_removeListener; apply life_handler.
Qed.

Lemma life_step tmi_isMod op : preserves P (step tmi_isMod op).
Proof.
  destruct op; simpl;
    unfold setup, onBadLogin, attachBadLoginCheck, on, ee_say, ee_whisper, ee_isMod,
      emit, deliverChanges, observerCallback, attachBadLoginCheck, on,
      onValidCredentials, onInvalidCredentials, onCredentialsValidChange,
      onChannelsChange, settingsChange, writeArray, skip; life;
    try apply life_addListener; try apply life_callback; try apply life_callListeners;
    try apply life_syncChannels.
Qed.
End Lifecycle.

Lemma countCalls_app p key tr tr' :
  countCalls p key (tr ++ tr') = countCalls p key tr + countCalls p key tr'.
Proof. unfold countCalls. by rewrite callsOn_app, filter_app, length_app. Qed.

Lemma countCalls_lifecycle p key tr :
  (∀ c, p c = true → isNew c = true ∨ isDisconnect c = true) →
  countCalls p key (lifecycle tr) = countCalls p key tr.
Proof.
  intros Hp. induction tr as [|[k c] tr IH]; [done|].
  change ((k, c) :: tr) with ([(k, c)] ++ tr).
  rewrite lifecycle_app, !countCalls_app, IH. f_equal.
  unfold lifecycle.
  destruct (decide (isNew c = true ∨ isDisconnect c = true)) as [Hc|Hc].
  - by rewrite filter_cons_True.
  - rewrite filter_cons_False by done. rewrite filter_nil.
    unfold countCalls, callsOn. csimpl.
    destruct (decide (k = key)); [|done]. csimpl.
    by rewrite filter_cons_False by (intros Hpc; apply Hc, Hp, Hpc).
Qed.

Lemma balanced_ext s s' :
  (∀ k, is_Some (client_at k (clients s')) ↔ is_Some (client_at k (clients s))) →
  lifecycle (trace s') = lifecycle (trace s) → balanced s → balanced s'.
Proof.
  intros Hl Ht H key. specialize (H key). specialize (Hl key).
  rewrite <- (countCalls_lifecycle isNew key (trace s')) by (intros c ?; by left).
  rewrite <- (countCalls_lifecycle isDisconnect key (trace s')) by (intros c ?; by right).
  rewrite Ht.
  rewrite (countCalls_lifecycle isNew) by (intros c ?; by left).
  rewrite (countCalls_lifecycle isDisconnect) by (intros c ?; by right).
  rewrite H. f_equal.
  destruct (client_at key (clients s')), (client_at key (clients s)); try done.
  - destruct Hl as [Hl _]. by destruct Hl.
  - destruct Hl as [_ Hl]. by destruct Hl.
Qed.

Lemma balanced_destroy : preserves balanced destroy.
Proof.
  intros s H key. rewrite destroy_spec. specialize (H key).
  simpl final. unfold destroyed. cbn [trace clients].
  rewrite !countCalls_app, H.
  destruct s as [h st [[r|] [w|] [wh|]] e tr ob chs n], key; simpl; reflexivity || lia.
Qed.

Lemma balanced_create : preserves balanced create.
Proof.
  intros s H key. rewrite create_spec. specialize (H key).
  destruct (created_issued s) as (cr & cw & cwh & Hcl & Hiss & _).
  assert (Ht : trace (created s) = trace s ++ issued s (created s)).
  { unfold issued. destruct s as [h st cs e tr ob chs n]. simpl.
    rewrite <- !app_assoc. by rewrite drop_app_length. }
  simpl final. rewrite Ht, Hiss, Hcl, !countCalls_app, H.
  destruct s as [h st [[r|] [w|] [wh|]] e tr ob chs n], key; simpl; reflexivity || lia.
Qed.

(** X10. Every operation of the provider keeps the balance of the
    transport clients: under each key, the clients constructed so far are
    those that have been asked to disconnect, plus the one the table holds
    if it holds one.  No client is dropped while connected and no key ever
    has two clients that were not disconnected. *)
Theorem clients_balanced
    (tmi_isMod : Client → value → value → value) (op : Op) (s : State) :
  balanced s → balanced (final (step tmi_isMod op s)).
Proof.
  apply (life_step balanced balanced_ext balanced_destroy balanced_create).
Qed.

(** Witness of X10: a bad login on a page loaded with credentials. *)
Lemma clients_balanced_witness :
  let s := final (setup (initial {| username := "bob"; password := "pw" |} [VStr "#a"])) in
  balanced (final (step (λ _ _ _, VBool false)
                     (OEmit read "disconnected" [badLoginReason]) s)).
Proof.
  intros s. apply clients_balanced.
  intros []; vm_compute; reflexivity.
Defined.

(** ** The wiring is kept *)

Lemma steady_ext s s' : clients s' = clients s → steady s → steady s'.
Proof.
  intros Hc [Hn|[Hw Hs]]; [left|right].
  - intros k. rewrite Hc. apply Hn.
  - unfold wired, sideWired in *. by rewrite Hc.
Qed.

Lemma checked_wired s : wired checkedWirings s → wired allWirings s.
Proof.
  intros (c & w & Hc & Hl & Hw). exists c, w. repeat split; try done.
  unfold checkedWirings in Hw. unfold allWirings, armedWirings, spentWirings. simpl app.
  rewrite !elem_of_cons in *. rewrite elem_of_nil in Hw. tauto.
Qed.

Lemma forwards_clients key ls args : ∀ s,
  Forall forwarding ls → clients (final (callListeners key ls args s)) = clients s.
Proof.
  induction ls as [|l ls IH]; intros s Hall; [done|].
  apply Forall_cons in Hall as [[Honce [event Hfn]] Hall].
  cbn [callListeners]. rewrite Honce, Hfn. simpl.
  unfold skip, mret, M_ret, mbind, M_bind, ee_emit, modify.
  by rewrite IH.
Qed.

Lemma emit_forwards_clients key event args s c :
  client_at key (clients s) = Some c →
  Forall (λ l, l_event l = event → forwarding l) (c_listeners c) →
  clients (final (emit key event args s)) = clients s.
Proof.
  intros Hc Hall. unfold emit, getClient, mbind, M_bind. rewrite Hc.
  apply forwards_clients. unfold listenersFor.
  apply Forall_forall. intros l Hl. apply list_elem_of_filter in Hl as [Hev Hl].
  rewrite Forall_forall in Hall. by apply Hall.
Qed.

Lemma wired_forwards w :
  w ∈ allWirings →
  Forall (λ l, l_event l = "disconnected" ∨ l_event l = "connected" ∨ forwarding l)
    (baseListeners ++ w).
Proof.
  intros Hw. unfold allWirings, armedWirings, spentWirings in Hw. simpl app in Hw.
  rewrite ?elem_of_cons, ?elem_of_nil in Hw.
  repeat (destruct Hw as [Hw|Hw]); try contradiction; subst w;
    unfold baseListeners, readEvents; simpl;
    repeat (constructor; [first [by left | by right; left
                                | right; right; split; [reflexivity|eexists; reflexivity]]|]);
    constructor.
Qed.

Lemma steady_read_transitions s event args :
  wired checkedWirings s → sideWired s →
  event = "disconnected" ∨ event = "connected" →
  steady (final (emit read event args s)).
Proof.
  intros H (cw' & cwh' & Hw' & Hlw & Hwh' & Hlwh) Hev.
  wired_cases H; simpl in Hw', Hwh'; try discriminate;
    injection Hw' as <-; injection Hwh' as <-;
    destruct cw as [kw ow lw tw], cwh as [kwh owh lwh twh]; simpl in Hlw, Hlwh; subst;
    destruct Hev as [-> | ->]; run_event;
    try destruct (value_eq_dec (reasonOf _) badLoginReason);
    first [ left; by intros []
          | right; split; [wired_solve|eexists _, _; repeat split; reflexivity] ].
Qed.

(** X11. Once the read client carries the bad-login check and the write and
    whisper clients the listeners of [create], this wiring is kept by every
    event of every client, whatever its name and payload, by the public
    members, by reconciliation and by changes of the settings: afterwards
    either the table is empty (a bad login was handled) or the three
    clients are wired the same way, with the check still attached once and
    no listener on the write client. *)
Theorem wiring_kept
    (tmi_isMod : Client → value → value → value) (op : Op) (s : State) :
  steady s → runtimeOp op = true → steady (final (step tmi_isMod op s)).
Proof.
  intros Hs Hop. destruct op; try discriminate Hop; simpl step.
  - (* syncChannels *)
    apply (steady_ext s); [apply syncChannels_clients|done].
  - (* say *)
    apply (steady_ext s); [|done]. unfold ee_say, call, theClient, getClient, mbind, M_bind.
    by destruct (client_at write (clients s)).
  - (* whisper *)
    apply (steady_ext s); [|done]. unfold ee_whisper, call, theClient, getClient, mbind, M_bind.
    by destruct (client_at whisper (clients s)).
  - (* isMod *)
    apply (steady_ext s); [|done].
    destruct s as [h st [r [w|] wh] e tr ob chs n]; reflexivity.
  - (* an event *)
    destruct Hs as [Hn|[Hw Hside]].
    { apply (steady_ext s); [|by left]. unfold emit, getClient, mbind, M_bind.
      by rewrite (Hn key). }
    destruct key.
    + destruct (decide (event = "disconnected")) as [->|Hd];
        [apply steady_read_transitions; auto|].
      destruct (decide (event = "connected")) as [->|Hc];
        [apply steady_read_transitions; auto|].
      apply (steady_ext s); [|by right].
      destruct (checked_wired s Hw) as (c & w & Hcl & Hl & Hin).
      apply (emit_forwards_clients read event args s c Hcl). rewrite Hl.
      eapply Forall_impl; [by apply wired_forwards|].
      intros l [Hl'|[Hl'|Hl']] Hev; congruence.
    + apply (steady_ext s); [|by right].
      destruct Hside as (cw & cwh & Hcw & Hlw & _).
      apply (emit_forwards_clients write event args s cw Hcw). rewrite Hlw. constructor.
    + apply (steady_ext s); [|by right].
      destruct Hside as (cw & cwh & _ & _ & Hcwh & Hlwh).
      apply (emit_forwards_clients whisper event args s cwh Hcwh). rewrite Hlwh.
      constructor; [|constructor]. intros _. split; [reflexivity|eexists; reflexivity].
  - (* the watcher of the channel list *)
    unfold onChannelsChange. destruct (decide (newV ≠ oldV)); [|done].
    apply (steady_ext s); [apply syncChannels_clients|done].
  - (* a change of the settings *)
    apply (steady_ext s); [|done]. by destruct c.
Qed.

Lemma setup_steady s :
  noneLive s → observer s = None → credentialsValid s = true → steady (final (setup s)).
Proof.
  intros Hn Ho Hv. rewrite (setup_fresh s Hn Ho), Hv. simpl final.
  destruct (setup_fresh_wired s) as [(c & w & Hc & Hl & Hw) Hside].
  right. split; [|exact Hside].
  exists c, w. split; [exact Hc|]. split; [exact Hl|].
  apply list_elem_of_singleton in Hw. rewrite Hw.
  unfold checkedWirings. rewrite !elem_of_cons. auto.
Qed.

(** Witness of X11: a "connected" on a page loaded with credentials. *)
Lemma wiring_kept_witness :
  let s := final (setup (initial {| username := "bob"; password := "pw" |} [VStr "#a"])) in
  steady (final (step (λ _ _ _, VBool false)
                   (OEmit read "connected" [VStr "irc.example"; VOther 443]) s)).
Proof.
  intros s. apply wiring_kept; [|reflexivity].
  apply setup_steady; [by intros []|reflexivity|reflexivity].
Defined.

(** ** Edges *)

(** X12. The one-shot "disconnected" listener re-registers on
    [clients.read] after it has emitted.  When the bad-login check runs
    before it, which is the order once a "connected" has re-armed the
    suppressor, a bad-login "disconnected" first empties the table, is then
    emitted on [ee], and the re-registration throws a [TypeError] on the
    [null] under [read].  In the order of a fresh [create] the listener runs
    before the check and nothing is thrown. *)
Theorem bad_login_after_reconnect (s : State) (args : list value) :
  reasonOf args = badLoginReason →
  (wired [[badLoginCheck; suppressor]] s →
     threw (emit read "disconnected" args s) = true ∧
     noneLive (final (emit read "disconnected" args s)) ∧
     outward "disconnected" (final (emit read "disconnected" args s))
       = S (outward "disconnected" s)) ∧
  (wired [[suppressor; badLoginCheck]] s →
     threw (emit read "disconnected" args s) = false ∧
     noneLive (final (emit read "disconnected" args s)) ∧
     outward "disconnected" (final (emit read "disconnected" args s))
       = S (outward "disconnected" s)).
Proof.
  intros Hbad. split; intros H; event_cases H; try contradiction;
    (split; [reflexivity|]); (split; [by intros []|]); count_outward.
Qed.

(** Witness of X12: a page loaded with credentials loses its connection,
    connects again and is then refused. *)
Lemma bad_login_after_reconnect_witness :
  let s0 := final (setup (initial {| username := "bob"; password := "pw" |} [VStr "#a"])) in
  let s1 := final (emit read "disconnected" [VStr "Connection closed."] s0) in
  let s := final (emit read "connected" [VStr "irc.example"; VOther 443] s1) in
  threw (emit read "disconnected" [badLoginReason] s) = true ∧
  noneLive (final (emit read "disconnected" [badLoginReason] s)) ∧
  outward "disconnected" (final (emit read "disconnected" [badLoginReason] s))
    = S (outward "disconnected" s).
Proof.
  intros s0 s1 s.
  destruct (bad_login_after_reconnect s [badLoginReason] eq_refl) as [H _].
  apply H. eexists _, [badLoginCheck; suppressor].
  split; [vm_compute; reflexivity|]. split; [reflexivity|].
  apply list_elem_of_singleton. reflexivity.
Defined.

Lemma addListeners_nil key s : addListeners key [] s = s.
Proof.
  unfold addListeners. destruct (client_at key (clients s)) as [c|] eqn:Hc; [|done].
  rewrite app_nil_r.
  destruct s as [h st [r w wh] e tr ob chs n], c as [k o ls tc], key;
    simpl in *; by subst.
Qed.

Lemma client_at_put key v cs : client_at key (put_client key v cs) = v.
Proof. by destruct key. Qed.

Lemma put_client_put key v v' cs :
  put_client key v (put_client key v' cs) = put_client key v cs.
Proof. by destruct key. Qed.

Lemma addListeners_cons key l ls s :
  addListeners key ls (addListeners key [l] s) = addListeners key (l :: ls) s.
Proof.
  unfold addListeners.
  destruct (client_at key (clients s)) as [c|] eqn:Hc; [|by rewrite Hc].
  cbn [clients with_clients]. rewrite client_at_put, put_client_put.
  cbn [c_listeners with_listeners]. rewrite <- app_assoc.
  by destruct s, c.
Qed.

(** X13. [forwardEvents] on a client of the table adds one listener per
    name, in the order of the list, after the listeners the client has;
    each of them re-emits on [ee] under the name it was registered for and
    none is one-shot.  On a key that holds [null] it throws a [TypeError]
    at the first name and does nothing for an empty list. *)
Theorem forwardEvents_listeners (key : Role) (events : list string) (s : State) :
  (live key s →
     forwardEvents key events s
     = Ok () (addListeners key (map (λ event, listener event (HForward event)) events) s)) ∧
  (client_at key (clients s) = None →
     forwardEvents key events s = if events is [] then Ok () s else Err TypeError s).
Proof.
  split.
  - revert s. induction events as [|event events IH]; intros s Hlive.
    + simpl. by rewrite addListeners_nil.
    + unfold forwardEvents in *. cbn [forEach map].
      assert (Hadd : addListener key event (HForward event) s
                     = Ok () (addListeners key [listener event (HForward event)] s)).
      { destruct Hlive as [c Hc]. unfold addListener, setListeners.
        rewrite (bind_ok _ _ _ _ _ (theClient_ok _ _ _ Hc)).
        rewrite (bind_ok _ _ _ _ _ (theClient_ok _ _ _ Hc)).
        unfold addListeners. by rewrite Hc. }
      rewrite (bind_ok _ _ _ _ _ Hadd). rewrite IH.
      * by rewrite addListeners_cons.
      * destruct Hlive as [c Hc]. unfold live, addListeners. rewrite Hc. simpl.
        destruct (clients s) as [r w wh], key; simpl; eauto.
  - intros Hnone. destruct events as [|event events]; [done|].
    unfold forwardEvents. cbn [forEach]. apply bind_err.
    unfold addListener. apply bind_err.
    unfold theClient, getClient, mbind, M_bind. by rewrite Hnone.
Qed.

(** Witness of X13: two more names forwarded from the write client of a new
    page, and from a page without clients. *)
Lemma forwardEvents_listeners_witness :
  let s := final (create (initial {| username := "bob"; password := "pw" |} [])) in
  let s0 := initial {| username := "bob"; password := "pw" |} [] in
  forwardEvents write ["join"; "part"] s
  = Ok () (addListeners write (map (λ event, listener event (HForward event)) ["join"; "part"]) s) ∧
  forwardEvents write ["join"; "part"] s0 = Err TypeError s0.
Proof.
  intros s s0.
  destruct (forwardEvents_listeners write ["join"; "part"] s) as [Hlive _].
  destruct (forwardEvents_listeners write ["join"; "part"] s0) as [_ Hnone].
  split; [apply Hlive; vm_compute; eauto|exact (Hnone eq_refl)].
Defined.

(** X14. Neither [destroy()] nor [create()] touches [ready] or the events
    already emitted: of the emitter [create()] changes [badLogin] only, and
    [destroy()] nothing.  A [ready] that was true stays true through a
    teardown and a new [create()], until the next "disconnected" of a read
    client. *)
Theorem ready_survives_teardown (s : State) :
  ee (final (destroy s)) = ee s ∧
  ee (final (create s)) = with_badLogin (VBool false) (ee s) ∧
  ready (ee (final (create (final (destroy s))))) = ready (ee s).
Proof.
  rewrite !destroy_spec. simpl final. rewrite !create_spec. simpl final.
  by destruct s as [h st cs [rd bl em] tr ob chs n].
Qed.

(** X15. What [syncChannels()] asks of a read or write client, for any
    joined array (a channel may be in it more than once): a join for a
    channel exactly when it is desired and was not joined, never twice; a
    part for a channel exactly when it was joined and is not desired; and
    the joined array ends equal to the desired one as a set. *)
Theorem syncChannels_exact (s : State) (key : Role) :
  separateArrays s → key ≠ whisper →
  ∃ D J J',
    desiredChannels s = Some D ∧ joinedChannels key s = Some J ∧
    joinedChannels key (final (syncChannels s)) = Some J' ∧
    (∀ ch, ch ∈ joinsOn key (issued s (final (syncChannels s))) ↔ ch ∈ D ∧ ch ∉ J) ∧
    (∀ ch, ch ∈ partsOn key (issued s (final (syncChannels s))) ↔ ch ∈ J ∧ ch ∉ D) ∧
    NoDup (joinsOn key (issued s (final (syncChannels s)))) ∧
    asSet J' = asSet D.
Proof.
  intros Hs Hk.
  destruct (syncChannels_session s key Hs Hk) as (D & J & HD & HJ & _ & Hcalls & HJ').
  exists D, J, (keptOf D J ++ joinsOf D J).
  unfold joinsOn, partsOn. rewrite Hcalls, joins_of_sessionCalls, parts_of_sessionCalls.
  split; [done|]. split; [done|]. split; [done|].
  split; [intros ch; apply joinsOf_elem|].
  split; [intros ch; apply partsOf_elem|].
  split; [apply joinsOf_NoDup|apply kept_joined_set].
Qed.

(** Witness of X15: the write client of a page created with a channel named
    twice, when the desired list names another one twice. *)
Lemma syncChannels_exact_witness :
  let s := final (settingsChange (MutateChannels [VStr "#b"; VStr "#b"; VStr "#d"])
             (final (create (initial {| username := "bob"; password := "pw" |}
                               [VStr "#c"; VStr "#c"; VStr "#b"])))) in
  ∃ D J J',
    desiredChannels s = Some D ∧ joinedChannels write s = Some J ∧
    joinedChannels write (final (syncChannels s)) = Some J' ∧
    (∀ ch, ch ∈ joinsOn write (issued s (final (syncChannels s))) ↔ ch ∈ D ∧ ch ∉ J) ∧
    (∀ ch, ch ∈ partsOn write (issued s (final (syncChannels s))) ↔ ch ∈ J ∧ ch ∉ D) ∧
    NoDup (joinsOn write (issued s (final (syncChannels s)))) ∧
    asSet J' = asSet D.
Proof.
  intros s. apply (syncChannels_exact s write); [|discriminate].
  apply separateArraysb_true. vm_compute. reflexivity.
Defined.
(** ** The flags after a connection *)

Lemma undisturbed_refl s : undisturbed s s.
Proof. by repeat split. Qed.

Lemma undisturbed_trans s1 s2 s3 :
  undisturbed s1 s2 → undisturbed s2 s3 → undisturbed s1 s3.
Proof.
  intros (? & ? & ? & ? & ?) (? & ? & ? & ? & ?). repeat split; congruence.
Qed.

Lemma guarded_ext s s' :
  clients s' = clients s → badLogin (ee s') = badLogin (ee s) → guarded s → guarded s'.
Proof. intros Hc Hb. unfold guarded, wired, sideWired. by rewrite Hc, Hb. Qed.

Lemma settled_ext s s' : undisturbed s s' → settled s → settled s'.
Proof.
  intros (Hc & Ho & Hch & _ & Hb) (Hobs & Hchs & Hs).
  split; [congruence|]. split; [congruence|].
  destruct Hs as [Hn|Hg]; [left|right].
  - intros k. rewrite Hc. apply Hn.
  - by apply (guarded_ext s).
Qed.

(** Listeners that only re-emit on [ee] add to the events of [ee] and touch
    nothing else. *)
Lemma forwards_undisturbed key ls args : ∀ s,
  Forall forwarding ls → undisturbed s (final (callListeners key ls args s)).
Proof.
  induction ls as [|l ls IH]; intros s Hall; [apply undisturbed_refl|].
  apply Forall_cons in Hall as [[Honce [event Hfn]] Hall].
  cbn [callListeners]. rewrite Honce, Hfn. simpl.
  unfold skip, mret, M_ret, mbind, M_bind, ee_emit, modify.
  eapply undisturbed_trans; [|by apply IH].
  by repeat split.
Qed.

Lemma emit_forwards_undisturbed key event args s c :
  client_at key (clients s) = Some c →
  Forall (λ l, l_event l = event → forwarding l) (c_listeners c) →
  undisturbed s (final (emit key event args s)).
Proof.
  intros Hc Hall. unfold emit, getClient, mbind, M_bind. rewrite Hc.
  apply forwards_undisturbed. unfold listenersFor.
  apply Forall_forall. intros l Hl. apply list_elem_of_filter in Hl as [Hev Hl].
  rewrite Forall_forall in Hall. by apply Hall.
Qed.

Lemma guarded_forwards w :
  w ∈ guardedWirings →
  Forall (λ l, l_event l = "disconnected" ∨ l_event l = "connected" ∨ forwarding l)
    (baseListeners ++ w).
Proof.
  intros Hw. unfold guardedWirings, checkedWirings, recheckedWirings in Hw.
  simpl app in Hw. rewrite ?elem_of_cons, ?elem_of_nil in Hw.
  repeat (destruct Hw as [Hw|Hw]); try contradiction; subst w;
    unfold baseListeners, readEvents; simpl;
    repeat (constructor; [first [by left | by right; left
                                | right; right; split; [reflexivity|eexists; reflexivity]]|]);
    constructor.
Qed.

Lemma syncChannels_undisturbed s : undisturbed s (final (syncChannels s)).
Proof.
  destruct (syncChannels_syncFrame s s (syncFrame_refl s))
    as (Hc & He & _ & Ho & Hch & _).
  repeat split; congruence.
Qed.

Lemma call_undisturbed key x s : undisturbed s (final (call key x s)).
Proof.
  unfold call, theClient, getClient, mbind, M_bind.
  destruct (client_at key (clients s)); by repeat split.
Qed.

Lemma settingsChange_undisturbed c s : undisturbed s (final (settingsChange c s)).
Proof. destruct c; by repeat split. Qed.

Ltac guarded_with w :=
  eexists _, w; split; [reflexivity|]; split; [reflexivity|];
  unfold guardedWirings, checkedWirings, recheckedWirings; simpl app;
  rewrite ?elem_of_cons; auto 10.

(** Proves [wired guardedWirings s] for a state written out. *)
Ltac guarded_solve :=
  first [ guarded_with [suppressor; badLoginCheck]
        | guarded_with [badLoginCheck; suppressor]
        | guarded_with [badLoginCheck; rearm]
        | guarded_with [suppressor; badLoginCheck; badLoginCheck]
        | guarded_with [badLoginCheck; badLoginCheck; suppressor]
        | guarded_with [badLoginCheck; badLoginCheck; rearm] ].

(** The two events of the read client that have listeners of their own, on
    a guarded read client.  A "disconnected" for a bad login empties the
    table and leaves the records of [destroy] pending; otherwise the page
    stays guarded, and a "connected" has set [ready]. *)
Lemma read_transitions_guarded s event args :
  settled s → live read s →
  event = "disconnected" ∨ event = "connected" →
  let s' := final (emit read event args s) in
  observer s' = Some CbDestroy ∧
  (noneLive s' ∧ event = "disconnected" ∧ reasonOf args = badLoginReason ∨
   changes s' = [] ∧ guarded s' ∧
   (event = "connected" →
      ready (ee s') = true ∧ outward "connected" s' = S (outward "connected" s))).
Proof.
  intros (Ho & Hch & Hs) [c0 Hlive] Hev.
  destruct Hs as [Hn|(H & (cw' & cwh' & Hw' & Hlw & Hwh' & Hlwh) & Hb)];
    [rewrite (Hn read) in Hlive; discriminate|].
  clear Hlive. unfold guardedWirings, recheckedWirings in H.
  wired_cases H; simpl in Hw', Hwh', Ho, Hch, Hb; try discriminate;
    injection Hw' as <-; injection Hwh' as <-; injection Ho as ->;
    destruct cw as [kw ow lw tw], cwh as [kwh owh lwh twh], e as [rd bl em];
    simpl in Hlw, Hlwh, Hb; subst;
    destruct Hev as [-> | ->]; run_event;
    try destruct (value_eq_dec (reasonOf _) badLoginReason);
    (split; [reflexivity|]);
    first [ left; split; [by intros []|split; [reflexivity|assumption]]
          | right; split; [reflexivity|]; split;
            [split; [guarded_solve|];
             split; [eexists _, _; repeat split; reflexivity|reflexivity]|];
            first [ intros _; split; [reflexivity|count_outward]
                  | intros; discriminate ] ].
Qed.

(** The observer called on an empty table: [attachBadLoginCheck] reads a
    property of the [null] under [read] and throws. *)
Lemma observerCallback_none cb chs s :
  noneLive s → final (observerCallback cb chs s) = s.
Proof.
  intros Hn. unfold observerCallback.
  induction chs as [|ch chs IH]; [done|].
  cbn [forEach]. destruct (decide (ch = read)) as [->|Hne].
  - unfold attachBadLoginCheck, on, addListener, theClient, getClient, mbind, M_bind.
    by rewrite (Hn read).
  - unfold skip, mret, M_ret, mbind, M_bind. exact IH.
Qed.

Lemma deliverChanges_settled s :
  observer s = Some CbDestroy →
  noneLive s ∨ changes s = [] ∧ guarded s →
  settled (final (deliverChanges s)).
Proof.
  intros Ho Hs. unfold deliverChanges, get, mbind at 1, M_bind at 1. rewrite Ho.
  destruct (changes s) as [|ch chs] eqn:Hch.
  - split; [done|]. split; [done|]. destruct Hs as [Hn|(_ & Hg)]; auto.
  - destruct Hs as [Hn|(Hnil & _)]; [|discriminate].
    unfold modify, mbind, M_bind.
    rewrite (observerCallback_none CbDestroy (ch :: chs) (with_changes [] s));
      [|intros k; apply Hn].
    split; [exact Ho|]. split; [reflexivity|]. left. intros k. apply Hn.
Qed.

Lemma settled_delivered s : settled s → settled (final (deliverChanges s)).
Proof.
  intros (Ho & Hch & Hr). apply deliverChanges_settled; [exact Ho|].
  destruct Hr; auto.
Qed.

(** Every operation of the running page keeps the invariant, up to the
    delivery of the records of a [destroy]. *)
Lemma runtime_step_settled
    (tmi_isMod : Client → value → value → value) (op : Op) (s : State) :
  settled s → runtimeOp op = true →
  let s' := final (step tmi_isMod op s) in
  observer s' = Some CbDestroy ∧ (noneLive s' ∨ changes s' = [] ∧ guarded s').
Proof.
  intros Hs Hop s'.
  assert (Hquiet : undisturbed s s' →
    observer s' = Some CbDestroy ∧ (noneLive s' ∨ changes s' = [] ∧ guarded s')).
  { intros Hu. destruct (settled_ext s s' Hu Hs) as (Ho & Hch & Hr).
    split; [exact Ho|]. destruct Hr as [Hn|Hg]; auto. }
  subst s'. destruct op; try discriminate Hop; simpl step.
  - (* syncChannels *)
    apply Hquiet, syncChannels_undisturbed.
  - (* say *)
    apply Hquiet, call_undisturbed.
  - (* whisper *)
    apply Hquiet, call_undisturbed.
  - (* isMod *)
    apply Hquiet.
    destruct s as [h st [r [w|] wh] e tr ob chs n]; by repeat split.
  - (* an event *)
    destruct (client_at key (clients s)) as [c|] eqn:Hc; cycle 1.
    { apply Hquiet. simpl step. unfold emit, getClient, mbind, M_bind. rewrite Hc.
      apply undisturbed_refl. }
    pose proof Hs as (_ & _ & [Hn|(Hw & Hside & Hb)]);
      [rewrite (Hn key) in Hc; discriminate|].
    destruct key.
    + destruct (decide (event = "disconnected")) as [->|Hd].
      { destruct (read_transitions_guarded s "disconnected" args Hs) as (Ho & Hr);
          [by exists c|by left|].
        split; [exact Ho|]. destruct Hr as [[? _]|(? & ? & _)]; auto. }
      destruct (decide (event = "connected")) as [->|Hcn].
      { destruct (read_transitions_guarded s "connected" args Hs) as (Ho & Hr);
          [by exists c|by right|].
        split; [exact Ho|]. destruct Hr as [[? _]|(? & ? & _)]; auto. }
      apply Hquiet.
      destruct Hw as (c' & w & Hcl & Hl & Hin).
      apply (emit_forwards_undisturbed read event args s c' Hcl). rewrite Hl.
      eapply Forall_impl; [by apply guarded_forwards|].
      intros l [Hl'|[Hl'|Hl']] Hev; congruence.
    + apply Hquiet.
      destruct Hside as (cw & cwh & Hcw & Hlw & _).
      apply (emit_forwards_undisturbed write event args s cw Hcw). rewrite Hlw. constructor.
    + apply Hquiet.
      destruct Hside as (cw & cwh & _ & _ & Hcwh & Hlwh).
      apply (emit_forwards_undisturbed whisper event args s cwh Hcwh). rewrite Hlwh.
      constructor; [|constructor]. intros _. split; [reflexivity|eexists; reflexivity].
  - (* the watcher of the channel list *)
    apply Hquiet. simpl step. unfold onChannelsChange.
    destruct (decide (newV ≠ oldV)); [|apply undisturbed_refl].
    apply syncChannels_undisturbed.
  - (* a change of the settings *)
    apply Hquiet, settingsChange_undisturbed.
Qed.

(** [create] under the observer, then the delivery of its records.  On an
    empty table there is one record named [read]; on a table with clients
    there are two, that of the client [destroy] has dropped and that of the
    new one. *)
Lemma create_delivered s :
  settled s →
  final (deliverChanges (final (create s)))
  = with_changes []
      (addListeners read
         (if decide (live read s) then [badLoginCheck; badLoginCheck] else [badLoginCheck])
         (created s)).
Proof.
  intros (Ho & Hch & Hr).
  assert (Hc : final (create s) = created s) by (by rewrite create_spec).
  rewrite Hc. clear Hc.
  destruct Hr as [Hn|((c & w & Hcr & _) & (cw & cwh & Hcw & _ & Hcwh & _) & _)].
  - rewrite decide_False by (intros [c Hc]; rewrite (Hn read) in Hc; discriminate).
    apply noneLive_clients in Hn.
    destruct s as [h st cs e tr ob chs n]. simpl in Hn, Ho, Hch. subst.
    match goal with |- context [created ?s] => set (s0 := s) end.
    assert (Hd : deliverChanges (created s0)
                 = Ok () (with_changes [] (addListeners read [badLoginCheck] (created s0))))
      by (subst s0; run; reflexivity).
    by rewrite Hd.
  - rewrite decide_True by (by exists c).
    destruct s as [h st [r wr wh] e tr ob chs n]. simpl in Hcr, Hcw, Hcwh, Ho, Hch. subst.
    match goal with |- context [created ?s] => set (s0 := s) end.
    assert (Hd : deliverChanges (created s0)
                 = Ok () (with_changes []
                            (addListeners read [badLoginCheck; badLoginCheck] (created s0))))
      by (subst s0; run; reflexivity).
    by rewrite Hd.
Qed.

Lemma created_guarded s (ls : list Listener) :
  ls = [badLoginCheck] ∨ ls = [badLoginCheck; badLoginCheck] →
  observer (addListeners read ls (created s)) = observer s ∧
  (observer s = None → changes (addListeners read ls (created s)) = changes s) ∧
  guarded (addListeners read ls (created s)).
Proof.
  intros Hls. destruct s as [h st cs e tr ob chs n].
  split; [reflexivity|]. split; [|split; [|split]].
  - simpl. intros ->. simpl. by rewrite !app_nil_r.
  - destruct Hls as [-> | ->].
    + eexists _, [suppressor; badLoginCheck].
      split; [reflexivity|]. split; [reflexivity|].
      unfold guardedWirings, checkedWirings. simpl app. rewrite !elem_of_cons. auto.
    + eexists _, [suppressor; badLoginCheck; badLoginCheck].
      split; [reflexivity|]. split; [reflexivity|].
      unfold guardedWirings, checkedWirings, recheckedWirings. simpl app.
      rewrite !elem_of_cons. auto 10.
  - eexists _, _. repeat split; reflexivity.
  - reflexivity.
Qed.

Lemma with_observer_guarded ob s : guarded s → guarded (with_observer ob s).
Proof. apply guarded_ext; reflexivity. Qed.

Lemma with_changes_guarded chs s : guarded s → guarded (with_changes chs s).
Proof. apply guarded_ext; reflexivity. Qed.

Lemma observer_with_changes chs s : observer (with_changes chs s) = observer s.
Proof. reflexivity. Qed.

Lemma changes_with_changes chs s : changes (with_changes chs s) = chs.
Proof. reflexivity. Qed.

Lemma observer_with_observer ob s : observer (with_observer ob s) = ob.
Proof. reflexivity. Qed.

Lemma changes_with_observer ob s : changes (with_observer ob s) = changes s.
Proof. reflexivity. Qed.

Lemma load_settled tmi_isMod i chans :
  settled (turn tmi_isMod OSetup (initial i chans)).
Proof.
  unfold turn. simpl step.
  rewrite (setup_fresh (initial i chans)); [|by intros []|reflexivity].
  destruct (credentialsValid (initial i chans)); cbn [final].
  - destruct (created_guarded (initial i chans) [badLoginCheck] (or_introl eq_refl))
      as (_ & Hch & Hg).
    apply deliverChanges_settled; [apply observer_with_observer|]. right.
    split; [rewrite changes_with_observer; exact (Hch eq_refl)|].
    by apply with_observer_guarded.
  - apply deliverChanges_settled; [reflexivity|]. left. by intros [].
Qed.

Lemma create_settled s : settled s → settled (final (deliverChanges (final (create s)))).
Proof.
  intros Hs. rewrite (create_delivered s Hs). destruct Hs as (Ho & _ & _).
  destruct (created_guarded s
              (if decide (live read s) then [badLoginCheck; badLoginCheck]
               else [badLoginCheck])) as (Hobs & _ & Hg).
  { destruct (decide (live read s)); auto. }
  split; [rewrite observer_with_changes, Hobs; exact Ho|].
  split; [apply changes_with_changes|]. right.
  by apply with_changes_guarded.
Qed.

Lemma destroy_settled s : settled s → settled (final (deliverChanges (final (destroy s)))).
Proof.
  intros (Ho & _ & _). rewrite destroy_spec. cbn [final].
  apply deliverChanges_settled; [exact Ho|]. left. by intros [].
Qed.

Lemma turn_settled tmi_isMod op s :
  settled s → runtimeOp op || credentialsWatch op = true →
  settled (turn tmi_isMod op s).
Proof.
  intros Hs Hop. destruct (runtimeOp op) eqn:Hrun.
  { unfold turn. destruct (runtime_step_settled tmi_isMod op s Hs Hrun) as (Ho & Hr).
    by apply deliverChanges_settled. }
  destruct op; try discriminate Hop; try discriminate Hrun; unfold turn; simpl step.
  - (* the watcher of [onValidCredentials] *)
    unfold onValidCredentials, onCredentialsValidChange.
    destruct (decide (oldv ≠ newv)); [|by apply settled_delivered].
    destruct newv; [|by apply settled_delivered].
    by apply create_settled.
  - (* the watcher of [onInvalidCredentials] *)
    unfold onInvalidCredentials, onCredentialsValidChange.
    destruct (decide (oldv ≠ newv)); [|by apply settled_delivered].
    destruct newv; [by apply settled_delivered|].
    by apply destroy_settled.
Qed.

Lemma reached_settled tmi_isMod s : reached tmi_isMod s → settled s.
Proof.
  induction 1 as [i chans|s op _ IH Hop].
  - apply load_settled.
  - by apply turn_settled.
Qed.

(** C5.  The page is in a state it reaches between two turns: the body of
    the factory has run on the fresh page, and events of the three clients,
    calls of the public members, changes of the settings and calls of the
    watchers have followed, in any order and number, each with the delivery
    of its change records.  When the read client is in the table and
    reports a successful connection, [ready] is true and [badLogin] is
    false afterwards.  The listener of "connected" assigns [ready];
    [badLogin] is false because [create] has set it so and a bad login
    since then would have destroyed the clients.  The event is rebroadcast
    once on [ee] and the read client stays in the table. *)
Theorem connected_sets_ready_and_badLogin
    (tmi_isMod : Client → value → value → value) (s : State) (args : list value) :
  reached tmi_isMod s → live read s →
  let s' := final (emit read "connected" args s) in
  ready (ee s') = true ∧
  badLogin (ee s') = VBool false ∧
  outward "connected" s' = S (outward "connected" s) ∧
  live read s'.
Proof.
  intros Hreach Hlive s'.
  pose proof (reached_settled tmi_isMod s Hreach) as Hs.
  destruct (read_transitions_guarded s "connected" args Hs Hlive (or_intror eq_refl))
    as (_ & [(_ & Hev & _)|(_ & (Hw & _ & Hb) & Hc)]); [discriminate Hev|].
  fold s' in Hw, Hb, Hc. destruct (Hc eq_refl) as [Hready Hout].
  split; [exact Hready|]. split; [exact Hb|]. split; [exact Hout|].
  destruct Hw as (c & w & Hcl & _). by exists c.
Qed.

(** Witness of C5: a page loaded with credentials is refused by the server;
    the bad login is recorded and the clients are destroyed.  The user
    enters the credentials again, the watcher builds the clients anew, and
    the read client connects. *)
Lemma connected_sets_ready_and_badLogin_witness :
  let f : Client → value → value → value := λ _ _ _, VBool false in
  let s0 := turn f OSetup (initial {| username := "bob"; password := "pw" |} [VStr "#a"]) in
  let s1 := turn f (OEmit read "disconnected" [badLoginReason]) s0 in
  let s2 := turn f (OSettings (SetIdentity {| username := "bob"; password := "pw2" |})) s1 in
  let s3 := turn f (OValidWatch true false) s2 in
  let s' := final (emit read "connected" [VStr "irc.example"; VOther 443] s3) in
  badLogin (ee s1) = badLoginReason ∧
  ready (ee s') = true ∧
  badLogin (ee s') = VBool false.
Proof.
  intros f s0 s1 s2 s3.
  assert (Hr : reached f s3).
  { apply reached_turn; [|reflexivity].
    apply reached_turn; [|reflexivity].
    apply reached_turn; [|reflexivity].
    apply reached_load. }
  assert (Hl : live read s3) by (vm_compute; eauto).
  destruct (connected_sets_ready_and_badLogin f s3
              [VStr "irc.example"; VOther 443] Hr Hl) as (H1 & H2 & _).
  split; [vm_compute; reflexivity|]. split; [exact H1|exact H2].
Defined.
